(** * muduo::Buffer (src/buffer/muduo_buffer.h): a shallow embedding

    The class keeps a [std::vector<char>] and two [size_t] cursors:
<<
    +-------------------+------------------+------------------+
    | prependable bytes |  readable bytes  |  writable bytes  |
    +-------------------+------------------+------------------+
    0      <=      readerIndex   <=   writerIndex    <=     size
>>
    How the C++ is read:
    - [size_t] is a 64-bit unsigned integer: a [Z] in [0, 2^64) whose sums
      and differences wrap around ([size_t.add], [size_t.sub]).
    - The vector is a [list byte]; [resize] and the sized constructor throw
      [std::length_error] beyond [vector.max_size], and allocation within
      that bound succeeds.
    - [std::copy] is the element-by-element loop it is, written with list
      lookup and insert ([copy_from], [copy_within]).
    - [assert] comes from <assert.h> and the header does not define NDEBUG:
      a failing assertion aborts.  A member function therefore returns an
      [outcome]: its result, or the way the call failed.
    - A [(pointer, length)] argument pair is a byte list together with the
      length the caller passes; reading more bytes than the list holds is an
      out-of-bounds access.  A pointer into the storage is its offset.
    - Integers are stored by [memcpy] of their object representation; the
      host is taken little-endian, two's complement.
    - Const member functions are functions of the buffer that return no new
      buffer; the others return the buffer after the call.

    Two places of the header have no reading as they stand and are kept as
    parameters: the identifiers [be32] and [be16] that [prependInt32] and
    [prependInt16] pass to [prepend] without declaring them, and the length
    argument that [shrink] leaves out of its call of [append].

    The class invariant is [wf]: I1 of the class comment, on a storage of
    at most [max_size()] bytes; [inv] adds that the storage holds the
    cheap-prepend region.  Every buffer reached from a constructor by calls
    that meet their preconditions and ask for sizes a vector can have
    satisfies both ([reachable_inv]). *)

From Stdlib Require Import ZArith Lia.
From stdpp Require Import base tactics option list.
From coqutil Require Import Byte Word.LittleEndianList.

Local Open Scope Z_scope.

(** ** Failing calls *)

Inductive failure : Set :=
| AssertionFailed   (* assert(...) evaluated to false: abort() *)
| LengthError       (* std::length_error thrown by std::vector *)
| OutOfBounds.      (* an access outside the object: undefined behaviour *)

Inductive outcome (A : Type) : Type :=
| Ok (a : A)
| Fail (f : failure).
Arguments Ok {A} a.
Arguments Fail {A} f.

#[global] Instance outcome_ret : MRet outcome := fun A a => Ok a.
#[global] Instance outcome_bind : MBind outcome := fun A B k m =>
  match m with
  | Ok a => k a
  | Fail f => Fail f
  end.

Definition assert (c : bool) : outcome unit :=
  if c then Ok tt else Fail AssertionFailed.

(** ** size_t *)

Module size_t.
Definition modulus : Z := 2 ^ 64.
Definition wrap (z : Z) : Z := z mod modulus.
Definition add (a b : Z) : Z := wrap (a + b).
Definition sub (a b : Z) : Z := wrap (a - b).
Definition inb (z : Z) : Prop := 0 <= z < modulus.
End size_t.

(** ** Fixed-width signed integers and their object representation *)

Module int.
(** two's complement reading of the low [8 * n] bits *)
Definition swrap (n : nat) (z : Z) : Z :=
  (z + 2 ^ (8 * Z.of_nat n - 1)) mod 2 ^ (8 * Z.of_nat n)
  - 2 ^ (8 * Z.of_nat n - 1).
Definition in_range (n : nat) (x : Z) : Prop :=
  - 2 ^ (8 * Z.of_nat n - 1) <= x < 2 ^ (8 * Z.of_nat n - 1).
(** the [n] bytes [memcpy] reads from an [n]-byte integer *)
Definition to_bytes (n : nat) (x : Z) : list byte := le_split n x.
(** the [n]-byte integer [memcpy] writes from [n] bytes *)
Definition of_bytes (n : nat) (bs : list byte) : Z := swrap n (le_combine bs).
End int.

(** ** std::vector<char> and std::copy *)

Module vector.
(** [max_size()] of [std::vector<char>] on an LP64 host: PTRDIFF_MAX *)
Definition max_size : Z := 2 ^ 63 - 1.
Definition size (v : list byte) : Z := Z.of_nat (length v).
(** [vector(n)]: [n] value-initialised chars *)
Definition create (n : Z) : outcome (list byte) :=
  if max_size <? n then Fail LengthError
  else Ok (replicate (Z.to_nat n) Byte.x00).
(** [resize(n)]: truncates, or appends value-initialised chars *)
Definition resize (n : Z) (v : list byte) : outcome (list byte) :=
  if max_size <? n then Fail LengthError
  else if n <=? size v then Ok (take (Z.to_nat n) v)
  else Ok (v ++ replicate (Z.to_nat (n - size v)) Byte.x00).
End vector.

(** the [len] bytes found at pointer [data] *)
Definition span (data : list byte) (len : Z) : outcome (list byte) :=
  if len <=? Z.of_nat (length data) then Ok (take (Z.to_nat len) data)
  else Fail OutOfBounds.

(** [std::copy(d, d + length data, v.begin() + d_first)], source outside [v] *)
Fixpoint copy_from (data : list byte) (d_first : nat) (v : list byte)
  : list byte :=
  match data with
  | [] => v
  | x :: data' => copy_from data' (S d_first) (<[d_first := x]> v)
  end.

(** [std::copy(v.begin() + first, v.begin() + first + n, v.begin() + d_first)]:
    both ranges inside [v], elements assigned in increasing order *)
Fixpoint copy_within (n first d_first : nat) (v : list byte) : list byte :=
  match n with
  | O => v
  | S n' =>
      match v !! first with
      | Some x => copy_within n' (S first) (S d_first) (<[d_first := x]> v)
      | None => v
      end
  end.

(** the destination range must lie inside the vector *)
Definition store (d_first : Z) (data : list byte) (v : list byte)
  : outcome (list byte) :=
  if (0 <=? d_first) && (d_first + Z.of_nat (length data) <=? vector.size v)
  then Ok (copy_from data (Z.to_nat d_first) v)
  else Fail OutOfBounds.

(** ** The class *)

Record Buffer : Type := mkBuffer {
  buffer_ : list byte;
  readerIndex_ : Z;
  writerIndex_ : Z
}.

Definition kCheapPrepend : Z := 8.
Definition kInitialSize : Z := 1024.

Definition readableBytes (b : Buffer) : Z :=
  size_t.sub (writerIndex_ b) (readerIndex_ b).

Definition writableBytes (b : Buffer) : Z :=
  size_t.sub (vector.size (buffer_ b)) (writerIndex_ b).

Definition prependableBytes (b : Buffer) : Z := readerIndex_ b.

(** [explicit Buffer(size_t initialSize = kInitialSize)] *)
Definition Buffer_ctor (initialSize : Z) : outcome Buffer :=
  v ← vector.create (size_t.add kCheapPrepend initialSize);
  let b := mkBuffer v kCheapPrepend kCheapPrepend in
  assert (readableBytes b =? 0);;
  assert (writableBytes b =? initialSize);;
  assert (prependableBytes b =? kCheapPrepend);;
  Ok b.

(** [swap(rhs)]: the pair is ([*this], [rhs]) after the call *)
Definition swap (b rhs : Buffer) : Buffer * Buffer :=
  (mkBuffer (buffer_ rhs) (readerIndex_ rhs) (writerIndex_ rhs),
   mkBuffer (buffer_ b) (readerIndex_ b) (writerIndex_ b)).

(** [peek()]: the pointer [begin() + readerIndex_], as the bytes it points at *)
Definition peek (b : Buffer) : list byte :=
  drop (Z.to_nat (readerIndex_ b)) (buffer_ b).

Definition peekInt32 (b : Buffer) : outcome Z :=
  assert (4 <=? readableBytes b);;
  bs ← span (peek b) 4;
  Ok (int.of_bytes 4 bs).

Definition peekInt16 (b : Buffer) : outcome Z :=
  assert (2 <=? readableBytes b);;
  bs ← span (peek b) 2;
  Ok (int.of_bytes 2 bs).

Definition peekInt8 (b : Buffer) : outcome Z :=
  assert (1 <=? readableBytes b);;
  bs ← span (peek b) 1;
  Ok (int.of_bytes 1 bs).

Definition prepend (data : list byte) (len : Z) (b : Buffer) : outcome Buffer :=
  assert (len <=? prependableBytes b);;
  let r := size_t.sub (readerIndex_ b) len in
  d ← span data len;
  v ← store r d (buffer_ b);
  Ok (mkBuffer v r (writerIndex_ b)).

(** The bodies of [prependInt32] and [prependInt16] pass [&be32] and [&be16]
    to [prepend]; the header declares neither, and neither body reads [x].
    The two identifiers are parameters here, of the types their names and
    [sizeof] uses give them ([int32_t], [int16_t]). *)
Definition prependInt32 (be32 : Z) (x : Z) (b : Buffer) : outcome Buffer :=
  prepend (int.to_bytes 4 be32) 4 b.

Definition prependInt16 (be16 : Z) (x : Z) (b : Buffer) : outcome Buffer :=
  prepend (int.to_bytes 2 be16) 2 b.

Definition prependInt8 (x : Z) (b : Buffer) : outcome Buffer :=
  prepend (int.to_bytes 1 x) 1 b.

Definition retrieveAll (b : Buffer) : Buffer :=
  mkBuffer (buffer_ b) kCheapPrepend kCheapPrepend.

Definition retrieve (len : Z) (b : Buffer) : outcome Buffer :=
  assert (len <=? readableBytes b);;
  if len <? readableBytes b
  then Ok (mkBuffer (buffer_ b) (size_t.add (readerIndex_ b) len) (writerIndex_ b))
  else Ok (retrieveAll b).

(** [end] is a pointer into the storage: the offset [end - begin()] *)
Definition retrieveUntil (end_ : Z) (b : Buffer) : outcome Buffer :=
  assert (readerIndex_ b <=? end_);;
  assert (end_ <=? writerIndex_ b);;
  retrieve (size_t.wrap (end_ - readerIndex_ b)) b.

Definition retrieveInt64 (b : Buffer) : outcome Buffer := retrieve 8 b.
Definition retrieveInt32 (b : Buffer) : outcome Buffer := retrieve 4 b.
Definition retrieveInt16 (b : Buffer) : outcome Buffer := retrieve 2 b.
Definition retrieveInt8 (b : Buffer) : outcome Buffer := retrieve 1 b.

Definition retrieveAsString (len : Z) (b : Buffer)
  : outcome (list byte * Buffer) :=
  assert (len <=? readableBytes b);;
  result ← span (peek b) len;
  b' ← retrieve len b;
  Ok (result, b').

Definition retrieveAllAsString (b : Buffer) : outcome (list byte * Buffer) :=
  retrieveAsString (readableBytes b) b.

(** [beginWrite()]: the pointer [begin() + writerIndex_], as an offset into
    the storage *)
Definition beginWrite (b : Buffer) : Z := writerIndex_ b.

Definition hasWritten (len : Z) (b : Buffer) : outcome Buffer :=
  assert (len <=? writableBytes b);;
  Ok (mkBuffer (buffer_ b) (readerIndex_ b) (size_t.add (writerIndex_ b) len)).

Definition unwrite (len : Z) (b : Buffer) : outcome Buffer :=
  assert (len <=? readableBytes b);;
  Ok (mkBuffer (buffer_ b) (readerIndex_ b) (size_t.sub (writerIndex_ b) len)).

Definition makeSpace (len : Z) (b : Buffer) : outcome Buffer :=
  if size_t.add (writableBytes b) (prependableBytes b)
     <? size_t.add len kCheapPrepend
  then
    v ← vector.resize (size_t.add (writerIndex_ b) len) (buffer_ b);
    Ok (mkBuffer v (readerIndex_ b) (writerIndex_ b))
  else
    assert (kCheapPrepend <? readerIndex_ b);;
    let readable := readableBytes b in
    (* the source range [begin()+readerIndex_, begin()+writerIndex_) must
       be a range of the vector *)
    (if (readerIndex_ b <=? writerIndex_ b)
        && (writerIndex_ b <=? vector.size (buffer_ b))
     then Ok tt else Fail OutOfBounds);;
    let v := copy_within (Z.to_nat (writerIndex_ b - readerIndex_ b))
               (Z.to_nat (readerIndex_ b)) (Z.to_nat kCheapPrepend)
               (buffer_ b) in
    let b' := mkBuffer v kCheapPrepend (size_t.add kCheapPrepend readable) in
    assert (readable =? readableBytes b');;
    Ok b'.

Definition ensureWritableBytes (len : Z) (b : Buffer) : outcome Buffer :=
  b' ← (if writableBytes b <? len then makeSpace len b else Ok b);
  assert (len <=? writableBytes b');;
  Ok b'.

Definition append (data : list byte) (len : Z) (b : Buffer) : outcome Buffer :=
  b1 ← ensureWritableBytes len b;
  d ← span data len;
  v ← store (writerIndex_ b1) d (buffer_ b1);
  hasWritten len (mkBuffer v (readerIndex_ b1) (writerIndex_ b1)).

Definition appendInt64 (x : Z) (b : Buffer) : outcome Buffer :=
  append (int.to_bytes 8 x) 8 b.
Definition appendInt32 (x : Z) (b : Buffer) : outcome Buffer :=
  append (int.to_bytes 4 x) 4 b.
Definition appendInt16 (x : Z) (b : Buffer) : outcome Buffer :=
  append (int.to_bytes 2 x) 2 b.
Definition appendInt8 (x : Z) (b : Buffer) : outcome Buffer :=
  append (int.to_bytes 1 x) 1 b.

(** [shrink] calls [other.append(peek(),)]: the length argument is left out
    in the header.  It is the parameter [len] here. *)
Definition shrink (len : Z) (reserve : Z) (b : Buffer) : outcome Buffer :=
  other ← Buffer_ctor kInitialSize;
  other ← ensureWritableBytes (size_t.add (readableBytes b) reserve) other;
  other ← append (peek b) len other;
  Ok (fst (swap b other)).

(** the readable region, as a byte sequence *)
Definition content (b : Buffer) : list byte :=
  take (Z.to_nat (readableBytes b)) (peek b).

(** invariant I1 of the class comment *)
Definition I1 (b : Buffer) : Prop :=
  0 <= readerIndex_ b /\ readerIndex_ b <= writerIndex_ b
  /\ writerIndex_ b <= vector.size (buffer_ b).

(** I1, on a vector no larger than a vector can be *)
Definition wf (b : Buffer) : Prop :=
  I1 b /\ vector.size (buffer_ b) <= vector.max_size.

(** ** The states the member functions leave *)

(** the state [makeSpace] leaves in its first branch *)
Definition grown (len : Z) (b : Buffer) : Buffer :=
  mkBuffer
    (buffer_ b ++
       replicate (Z.to_nat (writerIndex_ b + len - vector.size (buffer_ b)))
         Byte.x00)
    (readerIndex_ b) (writerIndex_ b).

(** the state [makeSpace] leaves in its second branch *)
Definition compacted (b : Buffer) : Buffer :=
  mkBuffer
    (take (Z.to_nat kCheapPrepend) (buffer_ b) ++ content b ++
     drop (Z.to_nat (kCheapPrepend + readableBytes b)) (buffer_ b))
    kCheapPrepend (kCheapPrepend + readableBytes b).

(** the state [append] leaves, from the state [ensureWritableBytes] left *)
Definition written (data : list byte) (b1 : Buffer) : Buffer :=
  mkBuffer
    (take (Z.to_nat (writerIndex_ b1)) (buffer_ b1) ++ data ++
     drop (Z.to_nat (writerIndex_ b1) + length data) (buffer_ b1))
    (readerIndex_ b1)
    (writerIndex_ b1 + Z.of_nat (length data)).

(** the state [prepend] leaves *)
Definition prepended (data : list byte) (b : Buffer) : Buffer :=
  mkBuffer
    (take (Z.to_nat (readerIndex_ b - Z.of_nat (length data))) (buffer_ b)
     ++ data ++ drop (Z.to_nat (readerIndex_ b)) (buffer_ b))
    (readerIndex_ b - Z.of_nat (length data))
    (writerIndex_ b).

(** the buffer [Buffer(n)] constructs *)
Definition fresh (n : Z) : Buffer :=
  mkBuffer (replicate (Z.to_nat (kCheapPrepend + n)) Byte.x00)
    kCheapPrepend kCheapPrepend.

(** ** The operations of the class, and their valid calls *)

(** I1 on a storage that holds the cheap-prepend region, as every
    constructed buffer's does *)
Definition inv (b : Buffer) : Prop :=
  wf b /\ kCheapPrepend <= vector.size (buffer_ b).

Inductive op : Type :=
| Append (data : list byte)
| AppendInt8 (x : Z) | AppendInt16 (x : Z)
| AppendInt32 (x : Z) | AppendInt64 (x : Z)
| Prepend (data : list byte)
| PrependInt8 (x : Z) | PrependInt16 (be16 x : Z) | PrependInt32 (be32 x : Z)
| Retrieve (len : Z)
| RetrieveInt8 | RetrieveInt16 | RetrieveInt32 | RetrieveInt64
| RetrieveAll
| RetrieveAsString (len : Z)
| RetrieveAllAsString
| RetrieveUntil (end_ : Z)
| HasWritten (len : Z)
| Unwrite (len : Z)
| EnsureWritableBytes (len : Z)
| MakeSpace (len : Z)
| Shrink (len reserve : Z).

(** the buffer after the call *)
Definition exec (o : op) (b : Buffer) : outcome Buffer :=
  match o with
  | Append data => append data (Z.of_nat (length data)) b
  | AppendInt8 x => appendInt8 x b
  | AppendInt16 x => appendInt16 x b
  | AppendInt32 x => appendInt32 x b
  | AppendInt64 x => appendInt64 x b
  | Prepend data => prepend data (Z.of_nat (length data)) b
  | PrependInt8 x => prependInt8 x b
  | PrependInt16 be16 x => prependInt16 be16 x b
  | PrependInt32 be32 x => prependInt32 be32 x b
  | Retrieve len => retrieve len b
  | RetrieveInt8 => retrieveInt8 b
  | RetrieveInt16 => retrieveInt16 b
  | RetrieveInt32 => retrieveInt32 b
  | RetrieveInt64 => retrieveInt64 b
  | RetrieveAll => Ok (retrieveAll b)
  | RetrieveAsString len => r ← retrieveAsString len b; Ok (snd r)
  | RetrieveAllAsString => r ← retrieveAllAsString b; Ok (snd r)
  | RetrieveUntil end_ => retrieveUntil end_ b
  | HasWritten len => hasWritten len b
  | Unwrite len => unwrite len b
  | EnsureWritableBytes len => ensureWritableBytes len b
  | MakeSpace len => makeSpace len b
  | Shrink len reserve => shrink len reserve b
  end.

(** the precondition each member function asserts or is specified with;
    [makeSpace] is private and called on a shortfall only *)
Definition pre (o : op) (b : Buffer) : Prop :=
  match o with
  | Prepend data => Z.of_nat (length data) <= prependableBytes b
  | PrependInt8 _ => 1 <= prependableBytes b
  | PrependInt16 _ _ => 2 <= prependableBytes b
  | PrependInt32 _ _ => 4 <= prependableBytes b
  | Retrieve len | RetrieveAsString len | Unwrite len =>
      0 <= len <= readableBytes b
  | RetrieveInt8 => 1 <= readableBytes b
  | RetrieveInt16 => 2 <= readableBytes b
  | RetrieveInt32 => 4 <= readableBytes b
  | RetrieveInt64 => 8 <= readableBytes b
  | RetrieveUntil end_ => readerIndex_ b <= end_ <= writerIndex_ b
  | HasWritten len => 0 <= len <= writableBytes b
  | EnsureWritableBytes len => 0 <= len
  | MakeSpace len => 0 <= len /\ writableBytes b < len
  | Shrink _ reserve => 0 <= reserve
  | _ => True
  end.

(** what a call that may grow a vector asks for is a size a vector can
    have; [shrink] reads the [len] bytes it hands to [append] inside the
    storage *)
Definition fits (o : op) (b : Buffer) : Prop :=
  match o with
  | Append data =>
      writerIndex_ b + Z.of_nat (length data) <= vector.max_size
  | AppendInt8 _ => writerIndex_ b + 1 <= vector.max_size
  | AppendInt16 _ => writerIndex_ b + 2 <= vector.max_size
  | AppendInt32 _ => writerIndex_ b + 4 <= vector.max_size
  | AppendInt64 _ => writerIndex_ b + 8 <= vector.max_size
  | EnsureWritableBytes len | MakeSpace len =>
      writerIndex_ b + len <= vector.max_size
  | Shrink len reserve =>
      kCheapPrepend + readableBytes b + reserve <= vector.max_size
      /\ 0 <= len <= vector.size (buffer_ b) - readerIndex_ b
      /\ kCheapPrepend + len <= vector.max_size
  | _ => True
  end.

(** the states of valid call sequences on constructed buffers *)
Inductive reachable : Buffer -> Prop :=
| reach_ctor n b :
    0 <= n -> kCheapPrepend + n <= vector.max_size ->
    Buffer_ctor n = Ok b -> reachable b
| reach_call o b b' :
    reachable b -> pre o b -> fits o b -> exec o b = Ok b' -> reachable b'
| reach_swap_l b rhs :
    reachable b -> reachable rhs -> reachable (fst (swap b rhs))
| reach_swap_r b rhs :
    reachable b -> reachable rhs -> reachable (snd (swap b rhs)).

(** ** Example buffers *)

Definition hello : list byte :=
  [Byte.x68; Byte.x65; Byte.x6c; Byte.x6c; Byte.x6f].

(** the buffer after [Buffer b; b.append("hello", 5)] *)
Definition hello_buffer : Buffer := written hello (fresh kInitialSize).

(** the buffer after [Buffer b; b.appendInt8(1)] *)
Definition one_byte_buffer : Buffer :=
  written [Byte.x01] (fresh kInitialSize).

(** the buffer after [Buffer b; b.append("hello", 5); b.retrieve(2)]:
    the readable bytes "llo" sit at offsets 10, 11, 12 *)
Definition llo_buffer : Buffer :=
  mkBuffer (buffer_ hello_buffer) 10 13.

(** ** Arithmetic of the embedding *)

Lemma modulus_val : size_t.modulus = 18446744073709551616.
Proof. reflexivity. Qed.

Lemma max_size_val : vector.max_size = 9223372036854775807.
Proof. reflexivity. Qed.

(** unfold the wrapping operations and the constants *)
Ltac size_t_unfold :=
  unfold readableBytes, writableBytes, prependableBytes,
    size_t.add, size_t.sub, size_t.wrap, size_t.inb,
    kCheapPrepend, kInitialSize in *;
  rewrite ?modulus_val, ?max_size_val in *.

Lemma wrap_small z : size_t.inb z -> size_t.wrap z = z.
Proof. size_t_unfold. intros. rewrite Z.mod_small; lia. Qed.

Lemma readableBytes_wf b :
  wf b -> readableBytes b = writerIndex_ b - readerIndex_ b.
Proof. intros [(?&?&?) ?]. size_t_unfold. rewrite Z.mod_small; lia. Qed.

Lemma writableBytes_wf b :
  wf b -> writableBytes b = vector.size (buffer_ b) - writerIndex_ b.
Proof. intros [(?&?&?) ?]. size_t_unfold. rewrite Z.mod_small; lia. Qed.

(** ** std::copy, as a splice of the destination *)

Section copy.
Implicit Types (v data : list byte) (d s n : nat).

Lemma length_copy_from data d v : length (copy_from data d v) = length v.
Proof.
  revert d v. induction data as [|x data IH]; intros d v; simpl; [done|].
  by rewrite IH, length_insert.
Qed.

Lemma length_copy_within n s d v : length (copy_within n s d v) = length v.
Proof.
  revert s d v. induction n as [|n IH]; intros s d v; simpl; [done|].
  destruct (v !! s); [|done]. by rewrite IH, length_insert.
Qed.

(** the bytes before and after the destination range are kept, the range
    holds the source *)
Lemma copy_from_splice data d v :
  (d + length data <= length v)%nat ->
  copy_from data d v = take d v ++ data ++ drop (d + length data) v.
Proof.
  revert d v. induction data as [|x data IH]; intros d v Hlen; simpl in *.
  - by rewrite Nat.add_0_r, take_drop.
  - rewrite IH by (rewrite length_insert; lia).
    rewrite (take_S_r _ _ x) by (apply list_lookup_insert_eq; lia).
    rewrite take_insert_ge by lia.
    rewrite drop_insert_lt by lia.
    rewrite <- (assoc_L (++)). simpl.
    by rewrite Nat.add_succ_r.
Qed.

(** a forward copy to a lower offset reads every source byte before it
    can be overwritten *)
Lemma copy_within_splice n s d v :
  (d <= s)%nat -> (s + n <= length v)%nat ->
  copy_within n s d v = take d v ++ take n (drop s v) ++ drop (d + n) v.
Proof.
  revert s d v. induction n as [|n IH]; intros s d v Hds Hlen; simpl.
  - by rewrite Nat.add_0_r, take_drop.
  - destruct (lookup_lt_is_Some_2 v s) as [x Hx]; [lia|]. rewrite Hx.
    rewrite IH by (rewrite ?length_insert; lia).
    rewrite (take_S_r _ _ x) by (apply list_lookup_insert_eq; lia).
    rewrite take_insert_ge by lia.
    rewrite !drop_insert_lt by lia.
    rewrite (drop_S v x s) by done.
    rewrite <- (assoc_L (++)). simpl.
    by rewrite Nat.add_succ_r.
Qed.
End copy.

(** ** Running the tests of a member function *)

Lemma add_small a b :
  0 <= a + b < size_t.modulus -> size_t.add a b = a + b.
Proof. intros. unfold size_t.add, size_t.wrap. by rewrite Z.mod_small. Qed.

Lemma sub_small a b :
  0 <= a - b < size_t.modulus -> size_t.sub a b = a - b.
Proof. intros. unfold size_t.sub, size_t.wrap. by rewrite Z.mod_small. Qed.

(** the constants, as literals [lia] can read *)
Ltac consts :=
  unfold kCheapPrepend, kInitialSize, prependableBytes, size_t.inb in *;
  rewrite ?modulus_val, ?max_size_val in *.

(** drop the wrap-around of the sums and differences that stay in range *)
Ltac unwrap :=
  consts;
  rewrite ?add_small, ?sub_small by (consts; lia).

(** decide the next comparison of the goal, by linear arithmetic *)
Ltac btest :=
  match goal with
  | |- context [Z.ltb ?a ?b] => destruct (Z.ltb_spec a b); try lia
  | |- context [Z.leb ?a ?b] => destruct (Z.leb_spec a b); try lia
  | |- context [Z.eqb ?a ?b] => destruct (Z.eqb_spec a b); try lia
  end.

Ltac run := repeat (simpl; btest); simpl.

Lemma wf_bounds b :
  wf b ->
  0 <= readerIndex_ b <= writerIndex_ b
  /\ writerIndex_ b <= vector.size (buffer_ b) <= vector.max_size.
Proof. intros [(?&?&?) ?]. lia. Qed.

Lemma length_content b :
  wf b -> Z.of_nat (length (content b)) = readableBytes b.
Proof.
  intros Hwf. unfold content, peek. rewrite readableBytes_wf by done.
  apply wf_bounds in Hwf. unfold vector.size in Hwf.
  rewrite length_take, length_drop. lia.
Qed.

(** ** makeSpace and ensureWritableBytes *)

Section growth.
Variables (b : Buffer) (len : Z).
Hypothesis Hwf : wf b.
Hypothesis Hlen : 0 <= len.

(** the pure grow: new zero bytes after the old storage *)
Lemma makeSpace_grow :
  writableBytes b < len ->
  writerIndex_ b + len <= vector.max_size ->
  writableBytes b + prependableBytes b < len + kCheapPrepend ->
  makeSpace len b =
    Ok (mkBuffer
          (buffer_ b ++
             replicate (Z.to_nat (writerIndex_ b + len
                                  - vector.size (buffer_ b))) Byte.x00)
          (readerIndex_ b) (writerIndex_ b)).
Proof.
  pose proof (wf_bounds b Hwf) as Hb.
  rewrite (writableBytes_wf b Hwf). intros Hshort Hfit Hslack.
  unfold makeSpace, vector.resize. rewrite (writableBytes_wf b Hwf).
  unwrap. run. done.
Qed.

(** the compaction: the readable bytes moved down to [kCheapPrepend] *)
Lemma makeSpace_compact :
  writableBytes b < len ->
  len + kCheapPrepend <= writableBytes b + prependableBytes b ->
  makeSpace len b =
    Ok (mkBuffer
          (take (Z.to_nat kCheapPrepend) (buffer_ b) ++ content b ++
           drop (Z.to_nat (kCheapPrepend + readableBytes b)) (buffer_ b))
          kCheapPrepend (kCheapPrepend + readableBytes b)).
Proof.
  pose proof (wf_bounds b Hwf) as Hb.
  unfold content, peek.
  rewrite (writableBytes_wf b Hwf), (readableBytes_wf b Hwf).
  intros Hshort Hslack.
  unfold makeSpace. rewrite (writableBytes_wf b Hwf), (readableBytes_wf b Hwf).
  unfold readableBytes. simpl. unwrap. run.
  rewrite copy_within_splice by (unfold vector.size in *; lia).
  by rewrite Z2Nat.inj_add by lia.
Qed.
End growth.

Lemma content_mk (pre mid post : list byte) r w :
  r = Z.of_nat (length pre) -> w = r + Z.of_nat (length mid) ->
  w < size_t.modulus ->
  content (mkBuffer (pre ++ mid ++ post) r w) = mid.
Proof.
  intros -> -> Hw. unfold content, peek, readableBytes. simpl.
  rewrite sub_small by lia.
  rewrite Nat2Z.id, drop_app_length.
  replace (_ + _ - _) with (Z.of_nat (length mid)) by lia.
  by rewrite Nat2Z.id, take_app_length.
Qed.

Lemma size_app (v1 v2 : list byte) :
  vector.size (v1 ++ v2) = vector.size v1 + vector.size v2.
Proof. unfold vector.size. rewrite length_app. lia. Qed.

Lemma size_replicate n (x : byte) :
  0 <= n -> vector.size (replicate (Z.to_nat n) x) = n.
Proof. intros. unfold vector.size. rewrite length_replicate. lia. Qed.

Lemma size_take n (v : list byte) :
  0 <= n <= vector.size v -> vector.size (take (Z.to_nat n) v) = n.
Proof. unfold vector.size. intros. rewrite length_take. lia. Qed.

Lemma size_drop n (v : list byte) :
  0 <= n <= vector.size v ->
  vector.size (drop (Z.to_nat n) v) = vector.size v - n.
Proof. unfold vector.size. intros. rewrite length_drop. lia. Qed.

Lemma size_content b : wf b -> vector.size (content b) = readableBytes b.
Proof. apply length_content. Qed.

Section growth_results.
Variables (b : Buffer) (len : Z).
Hypothesis Hwf : wf b.

Lemma grown_wf :
  vector.size (buffer_ b) <= writerIndex_ b + len <= vector.max_size ->
  wf (grown len b)
  /\ vector.size (buffer_ (grown len b)) = writerIndex_ b + len.
Proof.
  pose proof (wf_bounds b Hwf). intros Hfit.
  unfold wf, I1, grown. simpl.
  rewrite size_app, size_replicate by lia. lia.
Qed.

Lemma grown_content :
  vector.size (buffer_ b) <= writerIndex_ b + len ->
  content (grown len b) = content b.
Proof.
  pose proof (wf_bounds b Hwf) as Hb. intros Hfit.
  unfold content, peek, grown, readableBytes. simpl.
  unfold vector.size in *.
  rewrite drop_app_le by lia.
  rewrite take_app_le; [done|]. unwrap. rewrite length_drop. lia.
Qed.

Lemma compacted_size :
  kCheapPrepend <= readerIndex_ b ->
  vector.size (buffer_ (compacted b)) = vector.size (buffer_ b).
Proof.
  pose proof (wf_bounds b Hwf) as Hb. intros Hr.
  pose proof (readableBytes_wf b Hwf) as Hn.
  unfold compacted. simpl.
  rewrite !size_app, size_content by done. consts.
  rewrite size_take, size_drop by lia. lia.
Qed.

Lemma compacted_wf : kCheapPrepend <= readerIndex_ b -> wf (compacted b).
Proof.
  intros Hr. pose proof (compacted_size Hr) as Hsz.
  pose proof (wf_bounds b Hwf) as Hb.
  pose proof (readableBytes_wf b Hwf) as Hn.
  unfold wf, I1. rewrite Hsz. unfold compacted. simpl. consts. lia.
Qed.

Lemma compacted_content :
  kCheapPrepend <= readerIndex_ b -> content (compacted b) = content b.
Proof.
  intros Hr. pose proof (wf_bounds b Hwf) as Hb.
  pose proof (readableBytes_wf b Hwf) as Hn.
  pose proof (length_content b Hwf) as Hc.
  unfold compacted. apply content_mk.
  - consts. unfold vector.size in *. rewrite length_take. lia.
  - lia.
  - consts. lia.
Qed.

Hypothesis Hlen : 0 <= len.

Lemma ensureWritableBytes_enough :
  len <= writableBytes b -> ensureWritableBytes len b = Ok b.
Proof. intros. unfold ensureWritableBytes. run. done. Qed.

Lemma ensureWritableBytes_grow :
  writableBytes b < len ->
  writerIndex_ b + len <= vector.max_size ->
  writableBytes b + prependableBytes b < len + kCheapPrepend ->
  ensureWritableBytes len b = Ok (grown len b).
Proof.
  intros Hshort Hfit Hslack. unfold ensureWritableBytes.
  destruct (Z.ltb_spec (writableBytes b) len); [|lia].
  rewrite makeSpace_grow by done. fold (grown len b).
  rewrite (writableBytes_wf b Hwf) in Hshort.
  destruct grown_wf as [Hwf' Hsz]; [lia|].
  simpl. rewrite (writableBytes_wf _ Hwf'), Hsz. simpl. run. done.
Qed.

Lemma ensureWritableBytes_compact :
  writableBytes b < len ->
  len + kCheapPrepend <= writableBytes b + prependableBytes b ->
  ensureWritableBytes len b = Ok (compacted b).
Proof.
  intros Hshort Hslack. unfold ensureWritableBytes.
  destruct (Z.ltb_spec (writableBytes b) len); [|lia].
  rewrite makeSpace_compact by done. fold (compacted b).
  pose proof (wf_bounds b Hwf) as Hb.
  rewrite (writableBytes_wf b Hwf) in *.
  assert (kCheapPrepend <= readerIndex_ b) as Hr by (consts; lia).
  pose proof (compacted_wf Hr) as Hwf'.
  simpl. rewrite (writableBytes_wf _ Hwf'), compacted_size by done.
  pose proof (readableBytes_wf b Hwf). simpl. consts. run. done.
Qed.
End growth_results.

(** the three ways [ensureWritableBytes] returns, when the request fits *)
Lemma ensureWritableBytes_cases b len :
  wf b -> 0 <= len -> writerIndex_ b + len <= vector.max_size ->
  exists b1,
    ensureWritableBytes len b = Ok b1
    /\ wf b1 /\ len <= writableBytes b1
    /\ content b1 = content b /\ readableBytes b1 = readableBytes b
    /\ vector.size (buffer_ b) <= vector.size (buffer_ b1)
    /\ ((len <= writableBytes b /\ b1 = b)
        \/ (writableBytes b < len
            /\ writableBytes b + prependableBytes b < len + kCheapPrepend
            /\ b1 = grown len b)
        \/ (writableBytes b < len
            /\ len + kCheapPrepend <= writableBytes b + prependableBytes b
            /\ b1 = compacted b)).
Proof.
  intros Hwf Hlen Hfit. pose proof (wf_bounds b Hwf) as Hb.
  pose proof (writableBytes_wf b Hwf) as Hw.
  pose proof (readableBytes_wf b Hwf) as Hn.
  destruct (Z_le_gt_dec len (writableBytes b)) as [Hle|Hgt].
  { exists b. rewrite ensureWritableBytes_enough by done.
    split_and!; try done. by left. }
  destruct (Z_lt_le_dec (writableBytes b + prependableBytes b)
              (len + kCheapPrepend)) as [Hslack|Hslack].
  - exists (grown len b). rewrite ensureWritableBytes_grow by (done || lia).
    destruct (grown_wf b len Hwf) as [Hwf' Hsz]; [lia|].
    pose proof (writableBytes_wf _ Hwf') as Hw'.
    pose proof (readableBytes_wf _ Hwf') as Hn'.
    rewrite grown_content by (done || lia).
    split_and!; [done|done| |done| | |right; left; split_and!; (done || lia)].
    + rewrite Hw', Hsz. simpl. lia.
    + rewrite Hn', Hn. done.
    + lia.
  - exists (compacted b).
    rewrite ensureWritableBytes_compact by (done || lia).
    assert (kCheapPrepend <= readerIndex_ b) as Hr by (consts; lia).
    pose proof (compacted_wf b Hwf Hr) as Hwf'.
    pose proof (writableBytes_wf _ Hwf') as Hw'.
    pose proof (readableBytes_wf _ Hwf') as Hn'.
    pose proof (compacted_size b Hwf Hr) as Hsz.
    rewrite compacted_content by done.
    split_and!; [done|done| |done| | |right; right; split_and!; (done || lia)].
    + rewrite Hw', Hsz. simpl. consts. lia.
    + rewrite Hn'. simpl. lia.
    + lia.
Qed.

(** ** append *)

Lemma span_all (data : list byte) :
  span data (Z.of_nat (length data)) = Ok data.
Proof. unfold span. run. by rewrite Nat2Z.id, take_ge. Qed.

Section written.
Variables (data : list byte) (b1 : Buffer).
Hypothesis Hwf : wf b1.
Hypothesis Hroom : Z.of_nat (length data) <= writableBytes b1.

Lemma written_size :
  vector.size (buffer_ (written data b1)) = vector.size (buffer_ b1).
Proof.
  pose proof (wf_bounds b1 Hwf) as Hb.
  pose proof Hroom as Hr. rewrite (writableBytes_wf b1 Hwf) in Hr.
  unfold written, vector.size in *. simpl.
  rewrite !length_app, length_take, length_drop. lia.
Qed.

Lemma written_wf : wf (written data b1).
Proof.
  pose proof (wf_bounds b1 Hwf) as Hb.
  pose proof Hroom as Hr. rewrite (writableBytes_wf b1 Hwf) in Hr.
  unfold wf, I1. rewrite written_size. simpl. lia.
Qed.

Lemma written_content : content (written data b1) = content b1 ++ data.
Proof.
  pose proof (wf_bounds b1 Hwf) as Hb.
  pose proof Hroom as Hr. rewrite (writableBytes_wf b1 Hwf) in Hr.
  unfold content, peek. rewrite (readableBytes_wf _ written_wf).
  rewrite (readableBytes_wf _ Hwf). unfold vector.size in *.
  assert (take (Z.to_nat (writerIndex_ b1 - readerIndex_ b1))
            (drop (Z.to_nat (readerIndex_ b1)) (buffer_ b1))
          = drop (Z.to_nat (readerIndex_ b1))
              (take (Z.to_nat (writerIndex_ b1)) (buffer_ b1))) as ->.
  { rewrite take_drop_commute. do 2 f_equal. lia. }
  unfold written. simpl.
  rewrite (assoc_L (++)).
  rewrite drop_app_le by (rewrite length_app, length_take; lia).
  rewrite drop_app_le by (rewrite length_take; lia).
  rewrite take_app_ge by (rewrite length_app, length_drop, length_take; lia).
  rewrite length_app, length_drop, length_take.
  replace (_ - _)%nat with 0%nat by lia.
  by rewrite take_0, (right_id_L [] (++)).
Qed.

Lemma written_readableBytes :
  readableBytes (written data b1)
  = readableBytes b1 + Z.of_nat (length data).
Proof.
  rewrite (readableBytes_wf _ written_wf), (readableBytes_wf _ Hwf).
  simpl. lia.
Qed.

Lemma append_from b :
  ensureWritableBytes (Z.of_nat (length data)) b = Ok b1 ->
  append data (Z.of_nat (length data)) b = Ok (written data b1).
Proof.
  intros Hens. pose proof (wf_bounds b1 Hwf) as Hb.
  pose proof written_size as Hsz.
  unfold append. rewrite Hens. simpl. rewrite span_all. simpl.
  pose proof Hroom as Hroom'. rewrite (writableBytes_wf b1 Hwf) in Hroom'.
  unfold store. run.
  rewrite copy_from_splice by (unfold vector.size in *; lia).
  fold (written data b1).
  unfold hasWritten, writableBytes. simpl.
  change (take _ _ ++ _ ++ _) with (buffer_ (written data b1)).
  rewrite Hsz. unwrap. run. done.
Qed.
End written.

Lemma append_spec data b :
  wf b -> writerIndex_ b + Z.of_nat (length data) <= vector.max_size ->
  exists b',
    append data (Z.of_nat (length data)) b = Ok b'
    /\ wf b'
    /\ content b' = content b ++ data
    /\ readableBytes b' = readableBytes b + Z.of_nat (length data)
    /\ vector.size (buffer_ b) <= vector.size (buffer_ b')
    /\ (Z.of_nat (length data) <= writableBytes b ->
        b' = written data b).
Proof.
  intros Hwf Hfit.
  destruct (ensureWritableBytes_cases b (Z.of_nat (length data)))
    as (b1 & Hens & Hwf1 & Hroom & Hc & Hn & Hsz & Hcase); [done|lia|done|].
  exists (written data b1).
  rewrite (append_from data b1 Hwf1 Hroom b Hens).
  rewrite written_content, written_readableBytes, written_size, Hc, Hn
    by done.
  split_and!; try done; [by apply written_wf|].
  intros Hle. destruct Hcase as [[_ ->]|[[? _]|[? _]]]; (done || lia).
Qed.

(** the pointer and the length need not describe a whole list: [append]
    reads the first [len] bytes *)
Lemma append_take data len b :
  0 <= len <= Z.of_nat (length data) ->
  append data len b =
    append (take (Z.to_nat len) data)
      (Z.of_nat (length (take (Z.to_nat len) data))) b.
Proof.
  intros Hl. rewrite length_take.
  replace (Z.of_nat (_ `min` _)) with len by lia.
  unfold append, span. rewrite length_take.
  replace (Z.of_nat (_ `min` _)) with len by lia.
  rewrite take_take, Nat.min_id.
  by rewrite Z.leb_refl, (proj2 (Z.leb_le _ _)) by lia.
Qed.

(** ** retrieve and retrieveAsString *)

Section retrieve.
Variables (b : Buffer) (len : Z).
Hypothesis Hwf : wf b.

Lemma retrieve_lt :
  0 <= len < readableBytes b ->
  retrieve len b =
    Ok (mkBuffer (buffer_ b) (readerIndex_ b + len) (writerIndex_ b)).
Proof.
  pose proof (wf_bounds b Hwf) as Hb.
  rewrite (readableBytes_wf b Hwf). intros Hl.
  unfold retrieve. rewrite (readableBytes_wf b Hwf). unwrap. run. done.
Qed.

Lemma retrieve_eq :
  len = readableBytes b -> retrieve len b = Ok (retrieveAll b).
Proof. intros ->. unfold retrieve. run. done. Qed.

Lemma retrieveAsString_unfold :
  0 <= len <= readableBytes b ->
  retrieveAsString len b =
    (b' ← retrieve len b; Ok (take (Z.to_nat len) (content b), b')).
Proof.
  pose proof (wf_bounds b Hwf) as Hb.
  pose proof (readableBytes_wf b Hwf) as Hn. intros Hl.
  unfold retrieveAsString, span, content, peek.
  unfold vector.size in *. rewrite length_drop. run.
  rewrite take_take. by replace (_ `min` _)%nat with (Z.to_nat len) by lia.
Qed.
End retrieve.

(** ** prepend *)

Section prepend.
Variables (data : list byte) (b : Buffer).
Hypothesis Hwf : wf b.
Hypothesis Hroom : Z.of_nat (length data) <= prependableBytes b.

Lemma prepend_eq :
  prepend data (Z.of_nat (length data)) b = Ok (prepended data b).
Proof.
  pose proof (wf_bounds b Hwf) as Hb. pose proof Hroom as Hr.
  unfold prepend. rewrite span_all. unfold store. unwrap. run.
  rewrite copy_from_splice by (unfold vector.size in *; lia).
  unfold prepended. do 5 f_equal. lia.
Qed.

Lemma prepended_size :
  vector.size (buffer_ (prepended data b)) = vector.size (buffer_ b).
Proof.
  pose proof (wf_bounds b Hwf) as Hb. pose proof Hroom as Hr.
  unfold prepended, vector.size in *. consts. simpl.
  rewrite !length_app, length_take, length_drop. lia.
Qed.

Lemma prepended_wf : wf (prepended data b).
Proof.
  pose proof (wf_bounds b Hwf) as Hb. pose proof Hroom as Hr.
  unfold wf, I1. rewrite prepended_size. consts. simpl. lia.
Qed.

Lemma prepended_content : content (prepended data b) = data ++ content b.
Proof.
  pose proof (wf_bounds b Hwf) as Hb. pose proof Hroom as Hr.
  unfold content at 1. rewrite (readableBytes_wf _ prepended_wf).
  unfold content, peek. rewrite (readableBytes_wf _ Hwf).
  unfold prepended, vector.size in *. consts. simpl.
  rewrite drop_app_length' by (rewrite length_take; lia).
  rewrite take_app_ge by lia. do 2 f_equal. lia.
Qed.

(** every byte from the old [readerIndex_] on stays where it was *)
Lemma prepended_tail i :
  (Z.to_nat (readerIndex_ b) <= i)%nat ->
  buffer_ (prepended data b) !! i = buffer_ b !! i.
Proof.
  pose proof (wf_bounds b Hwf) as Hb. pose proof Hroom as Hr.
  intros Hi. unfold prepended, vector.size in *. consts. simpl.
  rewrite (assoc_L (++)).
  rewrite lookup_app_r by (rewrite length_app, length_take; lia).
  rewrite lookup_drop, length_app, length_take. f_equal. lia.
Qed.
End prepend.

(** ** The object representation of an integer *)

Lemma length_to_bytes n x : length (int.to_bytes n x) = n.
Proof. apply length_le_split. Qed.

Lemma of_to_bytes n x :
  (0 < n)%nat -> int.in_range n x -> int.of_bytes n (int.to_bytes n x) = x.
Proof.
  unfold int.in_range, int.of_bytes, int.to_bytes, int.swrap.
  intros Hn Hx. rewrite le_combine_split.
  replace (Z.of_nat n * 8) with (8 * Z.of_nat n) by lia.
  assert (2 ^ (8 * Z.of_nat n) = 2 * 2 ^ (8 * Z.of_nat n - 1)) as HM.
  { rewrite <- Z.pow_succ_r by lia. f_equal. lia. }
  rewrite Zplus_mod_idemp_l, Z.mod_small; lia.
Qed.

(** ** Construction, swap and shrink *)

Lemma fresh_size n :
  0 <= n -> vector.size (buffer_ (fresh n)) = kCheapPrepend + n.
Proof. intros. unfold fresh. simpl. consts. by rewrite size_replicate by lia. Qed.

Lemma fresh_wf n : 0 <= n -> kCheapPrepend + n <= vector.max_size -> wf (fresh n).
Proof.
  intros Hn Hfit. unfold wf, I1. rewrite fresh_size by done.
  simpl. consts. lia.
Qed.

Lemma fresh_content n : content (fresh n) = [].
Proof. unfold content, readableBytes, size_t.sub. by rewrite Z.sub_diag. Qed.

Lemma Buffer_ctor_eq n :
  0 <= n -> kCheapPrepend + n <= vector.max_size ->
  Buffer_ctor n = Ok (fresh n).
Proof.
  intros Hn Hfit. unfold Buffer_ctor, vector.create. unwrap. btest. simpl.
  unfold readableBytes, writableBytes. simpl.
  rewrite size_replicate by lia. unwrap. run. done.
Qed.

Lemma Buffer_eta b :
  mkBuffer (buffer_ b) (readerIndex_ b) (writerIndex_ b) = b.
Proof. by destruct b. Qed.

Lemma swap_fst b rhs : fst (swap b rhs) = rhs.
Proof. apply Buffer_eta. Qed.

Lemma swap_snd b rhs : snd (swap b rhs) = b.
Proof. apply Buffer_eta. Qed.

Lemma shrink_spec b len reserve :
  wf b -> 0 <= reserve ->
  kCheapPrepend + readableBytes b + reserve <= vector.max_size ->
  0 <= len <= vector.size (buffer_ b) - readerIndex_ b ->
  kCheapPrepend + len <= vector.max_size ->
  exists b',
    shrink len reserve b = Ok b'
    /\ wf b'
    /\ kCheapPrepend <= vector.size (buffer_ b')
    /\ content b' = take (Z.to_nat len) (peek b)
    /\ (len <= readableBytes b + reserve ->
        readerIndex_ b' = kCheapPrepend
        /\ vector.size (buffer_ b')
           = kCheapPrepend + Z.max kInitialSize (readableBytes b + reserve)
        /\ exists other,
             ensureWritableBytes (readableBytes b + reserve)
               (fresh kInitialSize) = Ok other
             /\ b' = written (take (Z.to_nat len) (peek b)) other).
Proof.
  intros Hwf Hres Hfit Hlen Hfit'. pose proof (wf_bounds b Hwf) as Hb.
  pose proof (readableBytes_wf b Hwf) as Hn.
  set (n := readableBytes b + reserve).
  assert (wf (fresh kInitialSize)) as Hwf0 by (by apply fresh_wf).
  pose proof (fresh_size kInitialSize ltac:(done)) as Hsz0.
  pose proof (writableBytes_wf _ Hwf0) as Hw0. rewrite Hsz0 in Hw0.
  simpl in Hw0.
  unfold shrink. rewrite Buffer_ctor_eq by done. simpl.
  rewrite add_small by (consts; lia). fold n.
  destruct (ensureWritableBytes_cases (fresh kInitialSize) n)
    as (o1 & Hens & Hwf1 & Hroom1 & Hc1 & _ & Hsz1 & Hcase);
    [done|lia|simpl; consts; lia|].
  rewrite Hens.
  assert (readerIndex_ o1 = kCheapPrepend /\ writerIndex_ o1 = kCheapPrepend
          /\ vector.size (buffer_ o1)
             = kCheapPrepend + Z.max kInitialSize n) as (Hr1 & Hw1 & Hs1).
  { destruct Hcase as [[? ->]|[(? & ? & ->)|(? & ? & _)]].
    - rewrite Hsz0. simpl. consts. lia.
    - destruct (grown_wf _ n Hwf0) as [_ ->]; simpl in *; consts; lia.
    - simpl in *. consts. lia. }
  simpl. rewrite append_take
    by (unfold peek; rewrite length_drop; unfold vector.size in *; lia).
  set (data := take (Z.to_nat len) (peek b)).
  assert (Z.of_nat (length data) = len) as Hdata.
  { unfold data, peek. rewrite length_take, length_drop.
    unfold vector.size in *. lia. }
  destruct (append_spec data o1)
    as (o2 & -> & Hwf2 & Hc2 & _ & Hsz2 & Hsame); [done|lia|].
  exists o2. simpl. rewrite Buffer_eta.
  rewrite Hc2, Hc1, fresh_content. simpl.
  split_and!; try done.
  - rewrite Hsz0 in Hsz1. consts. lia.
  - intros Hle. rewrite Hsame by lia.
    rewrite written_size by (done || lia). simpl.
    split_and!; try done. by exists o1.
Qed.

(** ** The invariant along valid calls *)

Lemma inv_wf b : inv b -> wf b.
Proof. by intros [? _]. Qed.

Lemma inv_mono b b' :
  inv b -> wf b' -> vector.size (buffer_ b) <= vector.size (buffer_ b') ->
  inv b'.
Proof. intros [_ ?] ? ?. split; [done|lia]. Qed.

Lemma appendInt_spec n x b :
  wf b -> writerIndex_ b + Z.of_nat n <= vector.max_size ->
  exists b',
    append (int.to_bytes n x) (Z.of_nat n) b = Ok b'
    /\ wf b'
    /\ content b' = content b ++ int.to_bytes n x
    /\ readableBytes b' = readableBytes b + Z.of_nat n
    /\ vector.size (buffer_ b) <= vector.size (buffer_ b').
Proof.
  intros Hwf Hfit. pose proof (append_spec (int.to_bytes n x) b Hwf) as H.
  rewrite length_to_bytes in H.
  destruct (H Hfit) as (b' & ? & ? & ? & ? & ? & _). by exists b'.
Qed.

Lemma prependInt_spec n x b :
  wf b -> Z.of_nat n <= prependableBytes b ->
  prepend (int.to_bytes n x) (Z.of_nat n) b
  = Ok (prepended (int.to_bytes n x) b).
Proof.
  intros Hwf Hroom. pose proof (prepend_eq (int.to_bytes n x) b Hwf) as H.
  rewrite length_to_bytes in H. by apply H.
Qed.

Lemma prepended_inv data b :
  inv b -> Z.of_nat (length data) <= prependableBytes b ->
  inv (prepended data b).
Proof.
  intros [Hwf Hsz] Hroom. split; [by apply prepended_wf|].
  by rewrite prepended_size.
Qed.

Lemma retrieve_inv len b :
  inv b -> 0 <= len <= readableBytes b ->
  exists b', retrieve len b = Ok b' /\ inv b'
    /\ buffer_ b' = buffer_ b
    /\ readableBytes b' = readableBytes b - len.
Proof.
  intros [Hwf Hsz] Hl. pose proof (wf_bounds b Hwf) as Hb.
  pose proof (readableBytes_wf b Hwf) as Hn.
  destruct (Z_lt_le_dec len (readableBytes b)).
  - rewrite retrieve_lt by (done || lia). eexists; split; [done|].
    unfold inv, wf, I1, readableBytes. simpl. unwrap.
    split_and!; (done || lia).
  - rewrite retrieve_eq by lia. eexists; split; [done|].
    unfold inv, wf, I1, readableBytes. simpl. unwrap.
    split_and!; (done || lia).
Qed.

Ltac by_append n x b :=
  destruct (appendInt_spec n x b) as (?b' & ? & ? & _ & _ & ?); [done..|];
  eexists; split; [eassumption|]; eauto using inv_mono.

Ltac by_prepend n :=
  rewrite (prependInt_spec n) by done;
  eexists; split; [done|];
  apply prepended_inv; [done|]; by rewrite length_to_bytes.

Ltac by_retrieve n b :=
  destruct (retrieve_inv n b) as (?b' & ? & ? & _); [done|lia|]; eauto.

Lemma exec_inv o b :
  inv b -> pre o b -> fits o b -> exists b', exec o b = Ok b' /\ inv b'.
Proof.
  intros Hinv Hpre Hfit. pose proof (inv_wf b Hinv) as Hwf.
  pose proof (wf_bounds b Hwf) as Hb.
  pose proof (readableBytes_wf b Hwf) as Hn.
  pose proof (writableBytes_wf b Hwf) as Hw.
  destruct Hinv as [_ Hsz].
  assert (inv b) as Hinv by done.
  destruct o; simpl in *.
  - destruct (append_spec data b) as (b' & ? & ? & _ & _ & ? & _); [done..|].
    eauto using inv_mono.
  - by_append 1%nat x b.
  - by_append 2%nat x b.
  - by_append 4%nat x b.
  - by_append 8%nat x b.
  - rewrite prepend_eq by done. eexists; split; [done|].
    by apply prepended_inv.
  - unfold prependInt8. by_prepend 1%nat.
  - unfold prependInt16. by_prepend 2%nat.
  - unfold prependInt32. by_prepend 4%nat.
  - by_retrieve len b.
  - by_retrieve 1 b.
  - by_retrieve 2 b.
  - by_retrieve 4 b.
  - by_retrieve 8 b.
  - eexists; split; [done|].
    unfold inv, wf, I1. simpl. consts. lia.
  - rewrite retrieveAsString_unfold by done.
    destruct (retrieve_inv len b) as (b' & -> & ? & _); [done|lia|].
    simpl. eauto.
  - unfold retrieveAllAsString. rewrite retrieveAsString_unfold by (done || lia).
    destruct (retrieve_inv (readableBytes b) b) as (b' & -> & ? & _);
      [done|lia|].
    simpl. eauto.
  - unfold retrieveUntil. run. rewrite wrap_small by (consts; lia).
    by_retrieve (end_ - readerIndex_ b) b.
  - unfold hasWritten. rewrite Hw. run. unwrap.
    eexists; split; [done|]. unfold inv, wf, I1. simpl. consts. lia.
  - unfold unwrite. rewrite Hn. run. unwrap.
    eexists; split; [done|]. unfold inv, wf, I1. simpl. consts. lia.
  - destruct (ensureWritableBytes_cases b len)
      as (b' & ? & ? & _ & _ & _ & ? & _); [done..|].
    eauto using inv_mono.
  - destruct Hpre as [Hlen Hshort].
    destruct (Z_lt_le_dec (writableBytes b + prependableBytes b)
                (len + kCheapPrepend)) as [Hslack|Hslack].
    + rewrite makeSpace_grow by done. fold (grown len b).
      destruct (grown_wf b len Hwf) as [? ?]; [lia|].
      eexists; split; [done|]. apply (inv_mono b); [done..|lia].
    + rewrite makeSpace_compact by done. fold (compacted b).
      assert (kCheapPrepend <= readerIndex_ b) as Hr by (consts; lia).
      eexists; split; [done|]. apply (inv_mono b); [done| |].
      * by apply compacted_wf.
      * by rewrite compacted_size.
  - destruct Hfit as (? & ? & ?).
    destruct (shrink_spec b len reserve) as (b' & ? & ? & ? & _); [done..|].
    by exists b'.
Qed.

Lemma swap_inv b rhs :
  inv b -> inv rhs -> inv (fst (swap b rhs)) /\ inv (snd (swap b rhs)).
Proof. by rewrite swap_fst, swap_snd. Qed.

Lemma reachable_inv b : reachable b -> inv b.
Proof.
  induction 1 as [n b Hn Hfit Hctor|o b b' _ IH Hpre Hfit Hexec
                 |b rhs _ IHb _ IHr|b rhs _ IHb _ IHr].
  - rewrite Buffer_ctor_eq in Hctor by done. injection Hctor as <-.
    split; [by apply fresh_wf|]. rewrite fresh_size by done. lia.
  - destruct (exec_inv o b IH Hpre Hfit) as (b2 & Heq & ?). congruence.
  - by apply swap_inv.
  - by apply swap_inv.
Qed.

(** ** Reading at the front *)

Lemma span_peek b n :
  wf b -> 0 <= n <= readableBytes b ->
  span (peek b) n = Ok (take (Z.to_nat n) (content b)).
Proof.
  intros Hwf Hn. pose proof (wf_bounds b Hwf) as Hb.
  pose proof (readableBytes_wf b Hwf) as Hr.
  unfold span, content, peek. unfold vector.size in *.
  rewrite length_drop. run.
  rewrite take_take. by replace (_ `min` _)%nat with (Z.to_nat n) by lia.
Qed.

Lemma content_nil b : wf b -> readableBytes b = 0 -> content b = [].
Proof.
  intros Hwf H0. pose proof (length_content b Hwf) as Hl.
  destruct (content b); [done|]. simpl in Hl. lia.
Qed.

Lemma retrieve_readableBytes b len :
  wf b -> 0 <= len <= readableBytes b ->
  exists b', retrieve len b = Ok b'
    /\ readableBytes b' = readableBytes b - len.
Proof.
  intros Hwf Hl. pose proof (wf_bounds b Hwf) as Hb.
  pose proof (readableBytes_wf b Hwf) as Hn.
  destruct (Z_lt_le_dec len (readableBytes b)).
  - rewrite retrieve_lt by (done || lia). eexists; split; [done|].
    unfold readableBytes. simpl. unwrap. lia.
  - rewrite retrieve_eq by lia. eexists; split; [done|].
    unfold readableBytes. simpl. unwrap. lia.
Qed.

(** [appendIntN(x)] on an empty buffer, then [peekIntN()] *)
Lemma append_peek_bytes n x b :
  wf b -> readableBytes b = 0 ->
  writerIndex_ b + Z.of_nat n <= vector.max_size ->
  exists b',
    append (int.to_bytes n x) (Z.of_nat n) b = Ok b'
    /\ Z.of_nat n <= readableBytes b'
    /\ span (peek b') (Z.of_nat n) = Ok (int.to_bytes n x).
Proof.
  intros Hwf H0 Hfit.
  destruct (appendInt_spec n x b) as (b' & Happ & Hwf' & Hc & Hr & _);
    [done..|].
  exists b'. rewrite span_peek by (done || lia).
  rewrite Hc, content_nil by done. simpl.
  rewrite take_ge by (rewrite length_to_bytes; lia).
  split_and!; (done || lia).
Qed.

(** * The claims *)

(** the example buffers are what the code builds *)
Lemma hello_buffer_built :
  (b ← Buffer_ctor kInitialSize; append hello 5 b) = Ok hello_buffer.
Proof. vm_compute. reflexivity. Qed.

(** a closed fact on concrete buffers, by evaluation *)
Ltac evaluated := vm_compute; intuition (discriminate || reflexivity).

Lemma one_byte_buffer_built :
  (b ← Buffer_ctor kInitialSize; appendInt8 1 b) = Ok one_byte_buffer.
Proof. vm_compute. reflexivity. Qed.

Lemma llo_buffer_built :
  (b ← Buffer_ctor kInitialSize; b ← append hello 5 b; retrieve 2 b)
  = Ok llo_buffer.
Proof. vm_compute. reflexivity. Qed.

(** [peekIntN()] gives back the integer whose bytes are at the front *)
Ltac peek_back Hn Hsp :=
  unfold peekInt8, peekInt16, peekInt32;
  match type of Hsp with
  | context [Z.of_nat ?k] =>
      let v := eval vm_compute in (Z.of_nat k) in
      change (Z.of_nat k) with v in Hn, Hsp
  end;
  run; rewrite Hsp; simpl; by rewrite of_to_bytes by (lia || done).

(** C1, as stated, fails.  After [Buffer b; b.appendInt8(1)] the buffer
    satisfies I1; [ensureWritableBytes(2^64 - 9)] then finds a shortfall,
    [makeSpace] resizes the vector to [(9 + 2^64 - 9) mod 2^64 = 0] bytes,
    the closing assertion passes on the wrapped [writableBytes()], and the
    call returns with [writerIndex_ = 9] past an empty storage.  And I1
    alone is not enough for [retrieveAll]: on a storage shorter than
    [kCheapPrepend] it sets both cursors past the end. *)
Lemma I1_lost_by_wrapped_request :
  (reachable one_byte_buffer
   /\ I1 one_byte_buffer
   /\ pre (EnsureWritableBytes (2 ^ 64 - 9)) one_byte_buffer
   /\ exec (EnsureWritableBytes (2 ^ 64 - 9)) one_byte_buffer
      = Ok (mkBuffer [] 8 9)
   /\ ~ I1 (mkBuffer [] 8 9))
  /\ (I1 (mkBuffer [] 0 0)
      /\ exec RetrieveAll (mkBuffer [] 0 0) = Ok (mkBuffer [] 8 8)
      /\ ~ I1 (mkBuffer [] 8 8)).
Proof.
  split; split_and!.
  - apply (reach_call (AppendInt8 1) (fresh kInitialSize)).
    + apply (reach_ctor kInitialSize); evaluated.
    + exact I.
    + evaluated.
    + evaluated.
  - evaluated.
  - evaluated.
  - evaluated.
  - evaluated.
  - evaluated.
  - evaluated.
  - evaluated.
Qed.

(** C1, amended: from every state that satisfies I1 on a storage of at
    least [kCheapPrepend] and at most [max_size()] bytes ([inv]), every
    operation of the class called with its stated precondition ([pre]) and,
    where it may grow a vector, with a request a vector can hold ([fits]:
    [writerIndex_ + len <= max_size()]), returns and re-establishes I1 and
    [inv]; a constructor whose storage fits establishes them; [swap] of two
    such buffers leaves two such buffers; hence I1 holds after every call
    of every sequence of such calls on constructed buffers. *)
Theorem invariant_preserved_by_fitting_calls :
  (forall o b, inv b -> pre o b -> fits o b ->
     exists b', exec o b = Ok b' /\ I1 b' /\ inv b')
  /\ (forall n, 0 <= n -> kCheapPrepend + n <= vector.max_size ->
        exists b, Buffer_ctor n = Ok b /\ I1 b /\ inv b)
  /\ (forall b rhs, inv b -> inv rhs ->
        (I1 (fst (swap b rhs)) /\ inv (fst (swap b rhs)))
        /\ (I1 (snd (swap b rhs)) /\ inv (snd (swap b rhs))))
  /\ (forall b, reachable b -> I1 b /\ inv b).
Proof.
  split_and!.
  - intros o b Hinv Hpre Hfit.
    destruct (exec_inv o b Hinv Hpre Hfit) as (b' & ? & Hinv').
    exists b'. split_and!; try done. apply Hinv'.
  - intros n Hn Hfit. exists (fresh n).
    assert (inv (fresh n)) as Hinv.
    { split; [by apply fresh_wf|]. rewrite fresh_size by done. lia. }
    split_and!; [by apply Buffer_ctor_eq|apply Hinv|done].
  - intros b rhs Hb Hr. destruct (swap_inv b rhs Hb Hr) as [H1 H2].
    split; (split; [apply H1 || apply H2|done]).
  - intros b Hreach. pose proof (reachable_inv b Hreach) as Hinv.
    split; [apply Hinv|done].
Qed.

Lemma invariant_preserved_by_fitting_calls_witness :
  exists b', exec (Append hello) one_byte_buffer = Ok b' /\ I1 b' /\ inv b'.
Proof.
  apply (proj1 invariant_preserved_by_fitting_calls
           (Append hello) one_byte_buffer); evaluated.
Defined.

(** C2, as stated, fails on the compaction branch: in [llo_buffer],
    [ensureWritableBytes(1020)] meets a shortfall (1019 writable) that the
    slack covers, so the readable bytes "llo" move down from offsets 10..12
    to offsets 8..10: offset 10 was readable and held 'l', and holds 'o'
    afterwards; offset 12 was readable and is not any more.  And the call
    does not return for every [n]: on a fresh default buffer
    [ensureWritableBytes(2^64 - 1)] aborts on an assertion. *)
Lemma compaction_moves_readable_bytes :
  (exists b',
     ensureWritableBytes 1020 llo_buffer = Ok b'
     /\ readerIndex_ llo_buffer <= 10 < writerIndex_ llo_buffer
     /\ buffer_ llo_buffer !! 10%nat = Some Byte.x6c
     /\ buffer_ b' !! 10%nat = Some Byte.x6f
     /\ readerIndex_ llo_buffer <= 12 < writerIndex_ llo_buffer
     /\ writerIndex_ b' <= 12)
  /\ ensureWritableBytes (2 ^ 64 - 1) (fresh kInitialSize)
     = Fail AssertionFailed.
Proof.
  split; [eexists; split_and!|]; [vm_compute; reflexivity|evaluated..].
Qed.

(** C2, amended: for every buffer satisfying the class invariant and every
    [n] with [writerIndex_ + n <= max_size()], [ensureWritableBytes(n)]
    returns with [writableBytes() >= n], whichever branch ran, and the
    readable bytes are the same sequence as before ([readableBytes()]
    unchanged).  When no growth or the pure grow ran, both cursors and
    every byte of the old storage keep their place; when the compaction
    ran, the readable bytes start at [kCheapPrepend]. *)
Theorem ensureWritableBytes_makes_room (b : Buffer) (n : Z) :
  wf b -> 0 <= n -> writerIndex_ b + n <= vector.max_size ->
  exists b',
    ensureWritableBytes n b = Ok b'
    /\ n <= writableBytes b'
    /\ content b' = content b
    /\ readableBytes b' = readableBytes b
    /\ I1 b'
    /\ (n <= writableBytes b
        \/ writableBytes b + prependableBytes b < n + kCheapPrepend ->
        readerIndex_ b' = readerIndex_ b
        /\ writerIndex_ b' = writerIndex_ b
        /\ take (length (buffer_ b)) (buffer_ b') = buffer_ b)
    /\ (writableBytes b < n
        /\ n + kCheapPrepend <= writableBytes b + prependableBytes b ->
        readerIndex_ b' = kCheapPrepend
        /\ writerIndex_ b' = kCheapPrepend + readableBytes b
        /\ length (buffer_ b') = length (buffer_ b)).
Proof.
  intros Hwf Hn Hfit. pose proof (wf_bounds b Hwf) as Hb.
  destruct (ensureWritableBytes_cases b n Hwf Hn Hfit)
    as (b' & Hens & Hwf' & Hroom & Hc & Hr & _ & Hcase).
  exists b'. split_and!; try done; [apply Hwf'| |].
  - intros Hkept.
    destruct Hcase as [[_ ->]|[(_ & _ & ->)|(? & ? & _)]]; [| |lia].
    + split_and!; try done. by rewrite take_ge.
    + split_and!; try done. unfold grown. simpl. by rewrite take_app_length.
  - intros [Hshort Hslack].
    destruct Hcase as [[? _]|[(_ & ? & _)|(_ & _ & ->)]]; [lia|lia|].
    split_and!; try done.
    assert (kCheapPrepend <= readerIndex_ b) as Hge.
    { rewrite (writableBytes_wf b Hwf) in *. consts. lia. }
    pose proof (compacted_size b Hwf Hge) as Hsz.
    unfold vector.size in Hsz. lia.
Qed.

Lemma ensureWritableBytes_makes_room_witness :
  exists b',
    ensureWritableBytes 1020 llo_buffer = Ok b'
    /\ 1020 <= writableBytes b'
    /\ content b' = content llo_buffer
    /\ readableBytes b' = readableBytes llo_buffer
    /\ I1 b'
    /\ (1020 <= writableBytes llo_buffer
        \/ writableBytes llo_buffer + prependableBytes llo_buffer
           < 1020 + kCheapPrepend ->
        readerIndex_ b' = readerIndex_ llo_buffer
        /\ writerIndex_ b' = writerIndex_ llo_buffer
        /\ take (length (buffer_ llo_buffer)) (buffer_ b')
           = buffer_ llo_buffer)
    /\ (writableBytes llo_buffer < 1020
        /\ 1020 + kCheapPrepend
           <= writableBytes llo_buffer + prependableBytes llo_buffer ->
        readerIndex_ b' = kCheapPrepend
        /\ writerIndex_ b' = kCheapPrepend + readableBytes llo_buffer
        /\ length (buffer_ b') = length (buffer_ llo_buffer)).
Proof.
  apply (ensureWritableBytes_makes_room llo_buffer 1020); evaluated.
Defined.

(** C3, as stated, fails when [writerIndex_ + len] does not fit: in
    [one_byte_buffer], [makeSpace(2^64 - 9)] is entered on a shortfall with
    [writableBytes() + prependableBytes() < len + kCheapPrepend], and it
    resizes the storage to [(9 + 2^64 - 9) mod 2^64 = 0] bytes: shorter than
    [writerIndex_ + len], and the byte [1] at offset 8 is gone. *)
Lemma makeSpace_truncates_on_wrapped_size :
  writableBytes one_byte_buffer < 2 ^ 64 - 9
  /\ writableBytes one_byte_buffer + prependableBytes one_byte_buffer
     < (2 ^ 64 - 9) + kCheapPrepend
  /\ buffer_ one_byte_buffer !! 8%nat = Some Byte.x01
  /\ makeSpace (2 ^ 64 - 9) one_byte_buffer = Ok (mkBuffer [] 8 9)
  /\ vector.size (buffer_ (mkBuffer [] 8 9))
     < writerIndex_ one_byte_buffer + (2 ^ 64 - 9).
Proof. split_and!; evaluated. Qed.

(** C3, amended: [makeSpace(len)], entered on a shortfall in a buffer
    satisfying the class invariant.  If [writableBytes() +
    prependableBytes() < len + kCheapPrepend] and [writerIndex_ + len <=
    max_size()], it resizes the storage to [writerIndex_ + len] bytes and
    leaves both cursors and every existing byte in place.  Otherwise it
    keeps the storage length, copies the readable bytes down to offset
    [kCheapPrepend] and sets [readerIndex_ = kCheapPrepend] and
    [writerIndex_ = kCheapPrepend + readableBytes()]: the readable content
    is the same byte sequence and [readableBytes()] is unchanged. *)
Theorem makeSpace_grows_or_compacts (b : Buffer) (len : Z) :
  wf b -> 0 <= len -> writableBytes b < len ->
  (writableBytes b + prependableBytes b < len + kCheapPrepend ->
   writerIndex_ b + len <= vector.max_size ->
   exists b',
     makeSpace len b = Ok b'
     /\ vector.size (buffer_ b') = writerIndex_ b + len
     /\ readerIndex_ b' = readerIndex_ b
     /\ writerIndex_ b' = writerIndex_ b
     /\ take (length (buffer_ b)) (buffer_ b') = buffer_ b
     /\ content b' = content b)
  /\ (len + kCheapPrepend <= writableBytes b + prependableBytes b ->
      exists b',
        makeSpace len b = Ok b'
        /\ length (buffer_ b') = length (buffer_ b)
        /\ readerIndex_ b' = kCheapPrepend
        /\ writerIndex_ b' = kCheapPrepend + readableBytes b
        /\ content b' = content b
        /\ readableBytes b' = readableBytes b
        /\ take (Z.to_nat (readableBytes b))
             (drop (Z.to_nat kCheapPrepend) (buffer_ b'))
           = take (Z.to_nat (readableBytes b))
               (drop (Z.to_nat (readerIndex_ b)) (buffer_ b))).
Proof.
  intros Hwf Hlen Hshort. pose proof (wf_bounds b Hwf) as Hb.
  pose proof (writableBytes_wf b Hwf) as Hw.
  pose proof (readableBytes_wf b Hwf) as Hn.
  split.
  - intros Hslack Hfit. exists (grown len b).
    destruct (grown_wf b len Hwf) as [_ Hsz]; [lia|].
    split_and!; try done.
    + by apply makeSpace_grow.
    + unfold grown. simpl. by rewrite take_app_length.
    + apply grown_content; [done|lia].
  - intros Hslack. exists (compacted b).
    assert (kCheapPrepend <= readerIndex_ b) as Hge by (consts; lia).
    pose proof (compacted_size b Hwf Hge) as Hsz.
    pose proof (compacted_wf b Hwf Hge) as Hwf'.
    pose proof (compacted_content b Hwf Hge) as Hc.
    split_and!; try done.
    + by apply makeSpace_compact.
    + unfold vector.size in Hsz. lia.
    + rewrite (readableBytes_wf _ Hwf'). simpl. lia.
    + unfold content, peek in Hc.
      rewrite (readableBytes_wf _ Hwf') in Hc. simpl in Hc.
      replace (kCheapPrepend + readableBytes b - kCheapPrepend)
        with (readableBytes b) in Hc by lia.
      done.
Qed.

Lemma makeSpace_grows_or_compacts_witness :
  (writableBytes llo_buffer + prependableBytes llo_buffer
   < 1020 + kCheapPrepend ->
   writerIndex_ llo_buffer + 1020 <= vector.max_size ->
   exists b',
     makeSpace 1020 llo_buffer = Ok b'
     /\ vector.size (buffer_ b') = writerIndex_ llo_buffer + 1020
     /\ readerIndex_ b' = readerIndex_ llo_buffer
     /\ writerIndex_ b' = writerIndex_ llo_buffer
     /\ take (length (buffer_ llo_buffer)) (buffer_ b') = buffer_ llo_buffer
     /\ content b' = content llo_buffer)
  /\ (1020 + kCheapPrepend
      <= writableBytes llo_buffer + prependableBytes llo_buffer ->
      exists b',
        makeSpace 1020 llo_buffer = Ok b'
        /\ length (buffer_ b') = length (buffer_ llo_buffer)
        /\ readerIndex_ b' = kCheapPrepend
        /\ writerIndex_ b' = kCheapPrepend + readableBytes llo_buffer
        /\ content b' = content llo_buffer
        /\ readableBytes b' = readableBytes llo_buffer
        /\ take (Z.to_nat (readableBytes llo_buffer))
             (drop (Z.to_nat kCheapPrepend) (buffer_ b'))
           = take (Z.to_nat (readableBytes llo_buffer))
               (drop (Z.to_nat (readerIndex_ llo_buffer))
                  (buffer_ llo_buffer))).
Proof.
  apply (makeSpace_grows_or_compacts llo_buffer 1020); evaluated.
Defined.

(** C4, as stated, fails on a buffer that already holds readable bytes:
    after [append("hello", 5)], [append("!", 1)] followed by
    [retrieveAsString(1)] returns "h", the first readable byte, not "!". *)
Lemma retrieveAsString_returns_older_bytes :
  reachable hello_buffer
  /\ (b' ← append [Byte.x21] 1 hello_buffer;
      r ← retrieveAsString 1 b'; Ok (fst r)) = Ok [Byte.x68]
  /\ [Byte.x68] <> [Byte.x21].
Proof.
  split_and!; [|evaluated..].
  apply (reach_call (Append hello) (fresh kInitialSize));
    [apply (reach_ctor kInitialSize)|..]; evaluated.
Qed.

(** C4, amended: on every buffer satisfying the class invariant and every
    byte sequence [data] with [writerIndex_ + len(data) <= max_size()],
    [append(data, len(data))] returns, and [retrieveAsString(len(data))]
    then returns the first [len(data)] bytes of the readable content, old
    bytes first, and consumes them by [retrieve(len(data))]; when the buffer
    had no readable bytes before the [append], these bytes are exactly
    [data]. *)
Theorem append_then_retrieveAsString (b : Buffer) (data : list byte) :
  wf b -> writerIndex_ b + Z.of_nat (length data) <= vector.max_size ->
  exists b1 b2,
    append data (Z.of_nat (length data)) b = Ok b1
    /\ retrieve (Z.of_nat (length data)) b1 = Ok b2
    /\ retrieveAsString (Z.of_nat (length data)) b1
       = Ok (take (length data) (content b ++ data), b2)
    /\ (readableBytes b = 0 ->
        retrieveAsString (Z.of_nat (length data)) b1 = Ok (data, b2)).
Proof.
  intros Hwf Hfit.
  destruct (append_spec data b Hwf Hfit)
    as (b1 & Happ & Hwf1 & Hc & Hr & _).
  pose proof (wf_bounds b Hwf) as Hb.
  pose proof (readableBytes_wf b Hwf) as Hn.
  destruct (retrieve_readableBytes b1 (Z.of_nat (length data)) Hwf1)
    as (b2 & Hret & _); [lia|].
  assert (retrieveAsString (Z.of_nat (length data)) b1
          = Ok (take (length data) (content b ++ data), b2)) as Hstr.
  { rewrite retrieveAsString_unfold by (done || lia).
    rewrite Hret, Hc, Nat2Z.id. done. }
  exists b1, b2. split_and!; try done.
  intros H0. rewrite Hstr, content_nil by done. simpl.
  by rewrite take_ge.
Qed.

Lemma append_then_retrieveAsString_witness :
  exists b1 b2,
    append hello (Z.of_nat (length hello)) (fresh kInitialSize) = Ok b1
    /\ retrieve (Z.of_nat (length hello)) b1 = Ok b2
    /\ retrieveAsString (Z.of_nat (length hello)) b1
       = Ok (take (length hello) (content (fresh kInitialSize) ++ hello), b2)
    /\ (readableBytes (fresh kInitialSize) = 0 ->
        retrieveAsString (Z.of_nat (length hello)) b1 = Ok (hello, b2)).
Proof.
  apply (append_then_retrieveAsString (fresh kInitialSize) hello); evaluated.
Defined.

(** C5, as stated, fails on a buffer that already holds readable bytes:
    after [append("hello", 5)], [appendInt8(5)] followed by [peekInt8()]
    returns 104, the byte 'h' at the front, not 5.  (The class has
    [peekInt8], [peekInt16] and [peekInt32], and no [peekInt64].) *)
Lemma peekInt_reads_older_bytes :
  reachable hello_buffer
  /\ (b' ← appendInt8 5 hello_buffer; peekInt8 b') = Ok 104
  /\ (b' ← appendInt16 5 hello_buffer; peekInt16 b') = Ok 25960
  /\ (b' ← appendInt32 5 hello_buffer; peekInt32 b') = Ok 1819043176.
Proof.
  split_and!; [|evaluated..].
  apply (reach_call (Append hello) (fresh kInitialSize));
    [apply (reach_ctor kInitialSize)|..]; evaluated.
Qed.

(** C5, amended: on a buffer satisfying the class invariant that holds no
    readable bytes, for N in {8, 16, 32} and every N-bit integer [x],
    [appendIntN(x)] (with [writerIndex_ + N/8 <= max_size()]) followed by
    [peekIntN()] returns [x]; [peekIntN] is a const member function, a
    function of the buffer that returns no new one, so [readerIndex_] is
    what it was.  On every such buffer with [readableBytes() >= N/8], N in
    {8, 16, 32, 64}, [retrieveIntN()] decreases [readableBytes()] by
    exactly N/8. *)
Theorem appendInt_peekInt_retrieveInt (b : Buffer) :
  wf b ->
  (readableBytes b = 0 ->
   (forall x, int.in_range 1 x -> writerIndex_ b + 1 <= vector.max_size ->
      exists b', appendInt8 x b = Ok b' /\ peekInt8 b' = Ok x)
   /\ (forall x, int.in_range 2 x -> writerIndex_ b + 2 <= vector.max_size ->
         exists b', appendInt16 x b = Ok b' /\ peekInt16 b' = Ok x)
   /\ (forall x, int.in_range 4 x -> writerIndex_ b + 4 <= vector.max_size ->
         exists b', appendInt32 x b = Ok b' /\ peekInt32 b' = Ok x))
  /\ (1 <= readableBytes b ->
      exists b', retrieveInt8 b = Ok b'
        /\ readableBytes b' = readableBytes b - 1)
  /\ (2 <= readableBytes b ->
      exists b', retrieveInt16 b = Ok b'
        /\ readableBytes b' = readableBytes b - 2)
  /\ (4 <= readableBytes b ->
      exists b', retrieveInt32 b = Ok b'
        /\ readableBytes b' = readableBytes b - 4)
  /\ (8 <= readableBytes b ->
      exists b', retrieveInt64 b = Ok b'
        /\ readableBytes b' = readableBytes b - 8).
Proof.
  intros Hwf. split_and!.
  - intros H0.
    split_and!; intros x Hx Hfit.
    + destruct (append_peek_bytes 1 x b) as (b' & Happ & Hn & Hsp);
        [done|done|simpl; lia|].
      exists b'. split; [exact Happ|]. peek_back Hn Hsp.
    + destruct (append_peek_bytes 2 x b) as (b' & Happ & Hn & Hsp);
        [done|done|simpl; lia|].
      exists b'. split; [exact Happ|]. peek_back Hn Hsp.
    + destruct (append_peek_bytes 4 x b) as (b' & Happ & Hn & Hsp);
        [done|done|simpl; lia|].
      exists b'. split; [exact Happ|]. peek_back Hn Hsp.
  - intros. apply retrieve_readableBytes; [done|lia].
  - intros. apply retrieve_readableBytes; [done|lia].
  - intros. apply retrieve_readableBytes; [done|lia].
  - intros. apply retrieve_readableBytes; [done|lia].
Qed.

Lemma appendInt_peekInt_retrieveInt_witness :
  exists b', appendInt32 (-2) (fresh kInitialSize) = Ok b'
    /\ peekInt32 b' = Ok (-2).
Proof.
  refine (proj2 (proj2 (proj1
            (appendInt_peekInt_retrieveInt (fresh kInitialSize) _) _))
            (-2) _ _); evaluated.
Defined.

(** C6: for a buffer satisfying the class invariant and [len] at most
    [readableBytes()]: if [len < readableBytes()], [retrieve(len)] advances
    [readerIndex_] by exactly [len] and changes nothing else; if
    [len == readableBytes()], it resets both cursors to [kCheapPrepend],
    exactly as [retrieveAll] does, so that afterwards [readableBytes()] is 0
    and [prependableBytes()] is [kCheapPrepend]. *)
Theorem retrieve_advances_or_resets (b : Buffer) (len : Z) :
  wf b -> 0 <= len <= readableBytes b ->
  (len < readableBytes b ->
   retrieve len b
   = Ok (mkBuffer (buffer_ b) (readerIndex_ b + len) (writerIndex_ b)))
  /\ (len = readableBytes b ->
      retrieve len b = Ok (retrieveAll b)
      /\ retrieveAll b = mkBuffer (buffer_ b) kCheapPrepend kCheapPrepend
      /\ readableBytes (retrieveAll b) = 0
      /\ prependableBytes (retrieveAll b) = kCheapPrepend).
Proof.
  intros Hwf Hl. split.
  - intros Hlt. apply retrieve_lt; [done|lia].
  - intros Heq. split_and!; try done. by apply retrieve_eq.
Qed.

Lemma retrieve_advances_or_resets_witness :
  (2 < readableBytes hello_buffer ->
   retrieve 2 hello_buffer
   = Ok (mkBuffer (buffer_ hello_buffer) (readerIndex_ hello_buffer + 2)
           (writerIndex_ hello_buffer)))
  /\ (2 = readableBytes hello_buffer ->
      retrieve 2 hello_buffer = Ok (retrieveAll hello_buffer)
      /\ retrieveAll hello_buffer
         = mkBuffer (buffer_ hello_buffer) kCheapPrepend kCheapPrepend
      /\ readableBytes (retrieveAll hello_buffer) = 0
      /\ prependableBytes (retrieveAll hello_buffer) = kCheapPrepend).
Proof.
  apply (retrieve_advances_or_resets hello_buffer 2); evaluated.
Defined.

(** C7: for a buffer with readable content [C] and at least [k] prependable
    bytes, and a [k]-byte sequence [h], [prepend(h, k)] decreases
    [readerIndex_] by [k], leaves [writerIndex_] unchanged, and yields the
    readable content [h ++ C]; every byte from the old [readerIndex_] on,
    those of [C] among them, keeps its offset and value, and the storage
    keeps its length. *)
Theorem prepend_puts_header_before_content (b : Buffer) (h : list byte) :
  wf b -> Z.of_nat (length h) <= prependableBytes b ->
  exists b',
    prepend h (Z.of_nat (length h)) b = Ok b'
    /\ readerIndex_ b' = readerIndex_ b - Z.of_nat (length h)
    /\ writerIndex_ b' = writerIndex_ b
    /\ content b' = h ++ content b
    /\ length (buffer_ b') = length (buffer_ b)
    /\ (forall i : nat, (Z.to_nat (readerIndex_ b) <= i)%nat ->
        buffer_ b' !! i = buffer_ b !! i).
Proof.
  intros Hwf Hroom. exists (prepended h b).
  split_and!; try done.
  - by apply prepend_eq.
  - by apply prepended_content.
  - pose proof (prepended_size h b Hwf Hroom) as Hsz.
    unfold vector.size in Hsz. lia.
  - intros i Hi. by apply prepended_tail.
Qed.

Lemma prepend_puts_header_before_content_witness :
  exists b',
    prepend [Byte.x2a; Byte.x2b] 2 hello_buffer = Ok b'
    /\ readerIndex_ b' = readerIndex_ hello_buffer - 2
    /\ writerIndex_ b' = writerIndex_ hello_buffer
    /\ content b' = [Byte.x2a; Byte.x2b] ++ content hello_buffer
    /\ length (buffer_ b') = length (buffer_ hello_buffer)
    /\ (forall i : nat, (Z.to_nat (readerIndex_ hello_buffer) <= i)%nat ->
        buffer_ b' !! i = buffer_ hello_buffer !! i).
Proof.
  apply (prepend_puts_header_before_content hello_buffer
           [Byte.x2a; Byte.x2b]); evaluated.
Defined.

(** C8: [prependInt32(x)] does not read [x].  On the buffer of
    [append("hello", 5)], [prependInt32(5)] prepends the four bytes of
    [be32], whatever that is: [readableBytes()] is 9 and the last five
    readable bytes are "hello", but the first four decode to [be32] (here
    0), not to 5.  [prependInt16] does the same with [be16]; [prependInt8]
    prepends the byte of [x]. *)
Theorem prependInt32_ignores_x :
  (forall be32 x x' b, prependInt32 be32 x b = prependInt32 be32 x' b)
  /\ (forall be16 x x' b, prependInt16 be16 x b = prependInt16 be16 x' b)
  /\ (b ← prependInt32 0 5 hello_buffer;
      v ← peekInt32 b;
      Ok (readableBytes b, v, drop 4 (content b))) = Ok (9, 0, hello)
  /\ (b ← prependInt8 5 hello_buffer;
      v ← peekInt8 b;
      Ok (readableBytes b, v, drop 1 (content b))) = Ok (6, 5, hello).
Proof. split_and!; (done || evaluated). Qed.

(** [shrink] for every value of the length its call of [append] leaves out:
    the new buffer holds the first [len] bytes found at [peek()], in a
    storage that is never smaller than a default-constructed one *)
Lemma shrink_any_length b len reserve :
  wf b -> 0 <= reserve ->
  kCheapPrepend + readableBytes b + reserve <= vector.max_size ->
  0 <= len <= vector.size (buffer_ b) - readerIndex_ b ->
  kCheapPrepend + len <= vector.max_size ->
  exists b',
    shrink len reserve b = Ok b'
    /\ content b' = take (Z.to_nat len) (peek b)
    /\ readableBytes b' = len
    /\ kCheapPrepend + kInitialSize <= vector.size (buffer_ b')
    /\ I1 b'.
Proof.
  intros Hwf Hres Hfit Hlen Hfit'. pose proof (wf_bounds b Hwf) as Hb.
  pose proof (readableBytes_wf b Hwf) as Hn.
  set (n := readableBytes b + reserve).
  assert (wf (fresh kInitialSize)) as Hwf0 by (by apply fresh_wf).
  pose proof (fresh_size kInitialSize ltac:(done)) as Hsz0.
  unfold shrink. rewrite Buffer_ctor_eq by done. simpl.
  rewrite add_small by (consts; lia). fold n.
  destruct (ensureWritableBytes_cases (fresh kInitialSize) n)
    as (o1 & Hens & Hwf1 & _ & Hc1 & _ & Hsz1 & Hcase);
    [done|lia|simpl; consts; lia|].
  rewrite Hens.
  assert (writerIndex_ o1 = kCheapPrepend) as Hw1.
  { destruct Hcase as [[_ ->]|[(_ & _ & ->)|(Hshort & Hslack & _)]];
      [done|done|].
    rewrite (writableBytes_wf _ Hwf0), Hsz0 in Hshort, Hslack.
    simpl in *. consts. lia. }
  simpl. rewrite append_take
    by (unfold peek; rewrite length_drop; unfold vector.size in *; lia).
  set (data := take (Z.to_nat len) (peek b)).
  assert (Z.of_nat (length data) = len) as Hdata.
  { unfold data, peek. rewrite length_take, length_drop.
    unfold vector.size in *. lia. }
  destruct (append_spec data o1)
    as (o2 & -> & Hwf2 & Hc2 & _ & Hsz2 & _); [done|lia|].
  exists o2. simpl. rewrite Buffer_eta.
  rewrite Hc2, Hc1, fresh_content. simpl.
  pose proof (length_content o2 Hwf2) as Hlen2.
  rewrite Hc2, Hc1, fresh_content in Hlen2. simpl in Hlen2.
  split_and!; [done|done|lia|lia|apply Hwf2].
Qed.

(** C9: [shrink] calls [other.append(peek(),)]: the header does not say how
    many bytes of the readable content it copies into the fresh buffer.
    Whatever length stands there (within the storage), the new buffer's
    readable content is the first [len] bytes at [peek()], and its storage
    holds at least [kCheapPrepend + kInitialSize] bytes.  On the buffer of
    [append("hello", 5)], [shrink(0)] leaves no readable byte with length
    0, "hel" with length 3, and "hello" followed by two bytes that were
    never readable with length 7; the storage is 1032 bytes every time. *)
Theorem shrink_copies_the_length_the_header_omits :
  (forall b len reserve,
     wf b -> 0 <= reserve ->
     kCheapPrepend + readableBytes b + reserve <= vector.max_size ->
     0 <= len <= vector.size (buffer_ b) - readerIndex_ b ->
     kCheapPrepend + len <= vector.max_size ->
     exists b',
       shrink len reserve b = Ok b'
       /\ content b' = take (Z.to_nat len) (peek b)
       /\ readableBytes b' = len
       /\ kCheapPrepend + kInitialSize <= vector.size (buffer_ b'))
  /\ content hello_buffer = hello
  /\ (exists b', shrink 0 0 hello_buffer = Ok b'
        /\ content b' = [] /\ vector.size (buffer_ b') = 1032)
  /\ (exists b', shrink 3 0 hello_buffer = Ok b'
        /\ content b' = take 3 hello /\ vector.size (buffer_ b') = 1032)
  /\ (exists b', shrink 7 0 hello_buffer = Ok b'
        /\ content b' = hello ++ [Byte.x00; Byte.x00]
        /\ vector.size (buffer_ b') = 1032).
Proof.
  split_and!.
  - intros b len reserve Hwf Hres Hfit Hlen Hfit'.
    destruct (shrink_any_length b len reserve)
      as (b' & ? & ? & ? & ? & _); [done..|].
    by exists b'.
  - evaluated.
  - eexists. split; [vm_compute; reflexivity|evaluated].
  - eexists. split; [vm_compute; reflexivity|evaluated].
  - eexists. split; [vm_compute; reflexivity|evaluated].
Qed.

(** C10, as stated, fails when [len + kCheapPrepend] wraps around: on a
    fresh default buffer, [makeSpace(2^64 - 1)] is entered on a shortfall,
    the test [writableBytes() + prependableBytes() < len + kCheapPrepend]
    compares 1032 with 7 and selects the compaction branch, and
    [readerIndex_] is [kCheapPrepend]: the assertion fires, also through
    the public [ensureWritableBytes]. *)
Lemma compaction_assertion_fires_on_wrapped_len :
  I1 (fresh kInitialSize)
  /\ writableBytes (fresh kInitialSize) < 2 ^ 64 - 1
  /\ (size_t.add (writableBytes (fresh kInitialSize))
        (prependableBytes (fresh kInitialSize))
      <? size_t.add (2 ^ 64 - 1) kCheapPrepend) = false
  /\ prependableBytes (fresh kInitialSize) = kCheapPrepend
  /\ makeSpace (2 ^ 64 - 1) (fresh kInitialSize) = Fail AssertionFailed
  /\ ensureWritableBytes (2 ^ 64 - 1) (fresh kInitialSize)
     = Fail AssertionFailed.
Proof. split_and!; evaluated. Qed.

(** C10, amended: in a buffer satisfying the class invariant, when
    [makeSpace(len)] is entered with [writableBytes() < len], with [len +
    kCheapPrepend] below 2^64, and its test selects the compaction branch,
    then [prependableBytes() > kCheapPrepend], that is [kCheapPrepend <
    readerIndex_]: the assertion of that branch holds and [makeSpace]
    returns.  ([prepend] does take [readerIndex_] below [kCheapPrepend] in
    other states: [prependInt8] on a fresh buffer leaves it at 7.) *)
Theorem compaction_assertion_holds (b : Buffer) (len : Z) :
  wf b -> 0 <= len -> len + kCheapPrepend < size_t.modulus ->
  writableBytes b < len ->
  (size_t.add (writableBytes b) (prependableBytes b)
   <? size_t.add len kCheapPrepend) = false ->
  kCheapPrepend < prependableBytes b
  /\ (kCheapPrepend <? readerIndex_ b) = true
  /\ (exists b', makeSpace len b = Ok b')
  /\ (exists b1, prependInt8 0 (fresh kInitialSize) = Ok b1
        /\ readerIndex_ b1 < kCheapPrepend).
Proof.
  intros Hwf Hlen Hnowrap Hshort Hbranch.
  pose proof (wf_bounds b Hwf) as Hb.
  pose proof (writableBytes_wf b Hwf) as Hw.
  assert (len + kCheapPrepend <= writableBytes b + prependableBytes b)
    as Hslack.
  { apply Z.ltb_ge in Hbranch. revert Hbranch. rewrite Hw. unwrap. lia. }
  assert (kCheapPrepend < prependableBytes b) as Hgt by (consts; lia).
  split_and!.
  - done.
  - apply Z.ltb_lt. exact Hgt.
  - rewrite makeSpace_compact by done. by eexists.
  - eexists. split; [vm_compute; reflexivity|evaluated].
Qed.

Lemma compaction_assertion_holds_witness :
  kCheapPrepend < prependableBytes llo_buffer
  /\ (kCheapPrepend <? readerIndex_ llo_buffer) = true
  /\ (exists b', makeSpace 1020 llo_buffer = Ok b')
  /\ (exists b1, prependInt8 0 (fresh kInitialSize) = Ok b1
        /\ readerIndex_ b1 < kCheapPrepend).
Proof. apply (compaction_assertion_holds llo_buffer 1020); evaluated. Defined.

(** * Further properties of the class *)

(** ** Consuming reads *)

Lemma retrieveAll_content b : content (retrieveAll b) = [].
Proof. unfold content, readableBytes, size_t.sub. by rewrite Z.sub_diag. Qed.

(** [retrieve(len)] drops the first [len] readable bytes and nothing else *)
Lemma retrieve_content b len :
  wf b -> 0 <= len <= readableBytes b ->
  exists b',
    retrieve len b = Ok b'
    /\ content b' = drop (Z.to_nat len) (content b)
    /\ buffer_ b' = buffer_ b.
Proof.
  intros Hwf Hl. pose proof (wf_bounds b Hwf) as Hb.
  pose proof (readableBytes_wf b Hwf) as Hn.
  pose proof (length_content b Hwf) as Hc.
  destruct (Z_lt_le_dec len (readableBytes b)).
  - rewrite retrieve_lt by (done || lia). eexists. split_and!; try done.
    unfold content, peek, readableBytes. simpl. unwrap.
    replace (Z.to_nat (writerIndex_ b - readerIndex_ b))
      with (Z.to_nat len
            + Z.to_nat (writerIndex_ b - (readerIndex_ b + len)))%nat by lia.
    rewrite <- take_drop_commute, drop_drop.
    by rewrite Z2Nat.inj_add by lia.
  - rewrite retrieve_eq by lia. eexists. split_and!; try done.
    rewrite retrieveAll_content, drop_ge; [done|lia].
Qed.

(** X1: on a buffer satisfying the class invariant, [retrieveAsString(len)]
    with [len <= readableBytes()] returns the first [len] readable bytes and
    leaves exactly the remaining ones readable: the returned string followed
    by the new readable content is the old readable content, and the storage
    is not written. *)
Theorem retrieveAsString_splits_content (b : Buffer) (len : Z) :
  wf b -> 0 <= len <= readableBytes b ->
  exists s b',
    retrieveAsString len b = Ok (s, b')
    /\ s = take (Z.to_nat len) (content b)
    /\ content b' = drop (Z.to_nat len) (content b)
    /\ s ++ content b' = content b
    /\ buffer_ b' = buffer_ b.
Proof.
  intros Hwf Hl.
  destruct (retrieve_content b len Hwf Hl) as (b' & Hret & Hc & Hv).
  exists (take (Z.to_nat len) (content b)), b'.
  rewrite retrieveAsString_unfold, Hret by done.
  split_and!; try done. by rewrite Hc, take_drop.
Qed.

Lemma retrieveAsString_splits_content_witness :
  exists s b',
    retrieveAsString 2 hello_buffer = Ok (s, b')
    /\ s = take (Z.to_nat 2) (content hello_buffer)
    /\ content b' = drop (Z.to_nat 2) (content hello_buffer)
    /\ s ++ content b' = content hello_buffer
    /\ buffer_ b' = buffer_ hello_buffer.
Proof. apply (retrieveAsString_splits_content hello_buffer 2); evaluated. Defined.

(** X2: on a buffer satisfying the class invariant, [retrieveAllAsString()]
    returns the whole readable content and leaves the buffer as
    [retrieveAll()] does: both cursors at [kCheapPrepend], nothing
    readable, the storage as it was. *)
Theorem retrieveAllAsString_takes_everything (b : Buffer) :
  wf b ->
  retrieveAllAsString b = Ok (content b, retrieveAll b)
  /\ content (retrieveAll b) = []
  /\ readableBytes (retrieveAll b) = 0
  /\ buffer_ (retrieveAll b) = buffer_ b.
Proof.
  intros Hwf. pose proof (length_content b Hwf) as Hc.
  pose proof (wf_bounds b Hwf) as Hb.
  pose proof (readableBytes_wf b Hwf) as Hn.
  split_and!; try done.
  unfold retrieveAllAsString.
  rewrite retrieveAsString_unfold, retrieve_eq by (done || lia).
  simpl. by rewrite take_ge by lia.
Qed.

Lemma retrieveAllAsString_takes_everything_witness :
  retrieveAllAsString llo_buffer = Ok (content llo_buffer, retrieveAll llo_buffer)
  /\ content (retrieveAll llo_buffer) = []
  /\ readableBytes (retrieveAll llo_buffer) = 0
  /\ buffer_ (retrieveAll llo_buffer) = buffer_ llo_buffer.
Proof. apply (retrieveAllAsString_takes_everything llo_buffer); evaluated. Defined.

(** X3: on a buffer satisfying the class invariant, [retrieveUntil(end)]
    with [end] an offset between the two cursors consumes the readable bytes
    before [end]; with [end] before [peek()] or after [beginWrite()] it
    aborts on its assertion. *)
Theorem retrieveUntil_consumes_up_to_end (b : Buffer) (end_ : Z) :
  wf b ->
  (readerIndex_ b <= end_ <= beginWrite b ->
   exists b',
     retrieveUntil end_ b = Ok b'
     /\ content b' = drop (Z.to_nat (end_ - readerIndex_ b)) (content b)
     /\ readableBytes b' = beginWrite b - end_
     /\ buffer_ b' = buffer_ b)
  /\ (end_ < readerIndex_ b \/ beginWrite b < end_ ->
      retrieveUntil end_ b = Fail AssertionFailed).
Proof.
  intros Hwf. pose proof (wf_bounds b Hwf) as Hb.
  pose proof (readableBytes_wf b Hwf) as Hn. unfold beginWrite. split.
  - intros He.
    destruct (retrieve_content b (end_ - readerIndex_ b) Hwf)
      as (b' & Hret & Hc & Hv); [lia|].
    destruct (retrieve_readableBytes b (end_ - readerIndex_ b) Hwf)
      as (b2 & Hret2 & Hr); [lia|].
    assert (b2 = b') as -> by congruence.
    exists b'. unfold retrieveUntil. run.
    rewrite wrap_small by (consts; lia).
    split_and!; try done. lia.
  - intros He. unfold retrieveUntil.
    destruct (Z.leb_spec (readerIndex_ b) end_); [|done]. simpl.
    destruct (Z.leb_spec end_ (writerIndex_ b)); [lia|done].
Qed.

Lemma retrieveUntil_consumes_up_to_end_witness :
  (readerIndex_ hello_buffer <= 10 <= beginWrite hello_buffer ->
   exists b',
     retrieveUntil 10 hello_buffer = Ok b'
     /\ content b'
        = drop (Z.to_nat (10 - readerIndex_ hello_buffer))
            (content hello_buffer)
     /\ readableBytes b' = beginWrite hello_buffer - 10
     /\ buffer_ b' = buffer_ hello_buffer)
  /\ (10 < readerIndex_ hello_buffer \/ beginWrite hello_buffer < 10 ->
      retrieveUntil 10 hello_buffer = Fail AssertionFailed).
Proof. apply (retrieveUntil_consumes_up_to_end hello_buffer 10); evaluated. Defined.

(** ** Writing at the end *)

(** [unwrite(len)] drops the last [len] readable bytes *)
Lemma unwrite_content b len :
  wf b -> 0 <= len <= readableBytes b ->
  unwrite len b
  = Ok (mkBuffer (buffer_ b) (readerIndex_ b) (writerIndex_ b - len))
  /\ content (mkBuffer (buffer_ b) (readerIndex_ b) (writerIndex_ b - len))
     = take (Z.to_nat (readableBytes b - len)) (content b).
Proof.
  intros Hwf Hl. pose proof (wf_bounds b Hwf) as Hb.
  pose proof (readableBytes_wf b Hwf) as Hn. split.
  - unfold unwrite. rewrite Hn in *. run. by unwrap.
  - unfold content, peek, readableBytes. simpl. unwrap.
    rewrite take_take. f_equal. lia.
Qed.

(** [hasWritten(n)] makes the next [n] bytes of the storage readable *)
Lemma hasWritten_eq b n :
  wf b -> 0 <= n <= writableBytes b ->
  hasWritten n b
  = Ok (mkBuffer (buffer_ b) (readerIndex_ b) (writerIndex_ b + n))
  /\ wf (mkBuffer (buffer_ b) (readerIndex_ b) (writerIndex_ b + n))
  /\ content (mkBuffer (buffer_ b) (readerIndex_ b) (writerIndex_ b + n))
     = content b
       ++ take (Z.to_nat n) (drop (Z.to_nat (writerIndex_ b)) (buffer_ b)).
Proof.
  intros Hwf Hn. pose proof (wf_bounds b Hwf) as Hb.
  pose proof (readableBytes_wf b Hwf) as Hr.
  pose proof (writableBytes_wf b Hwf) as Hw. rewrite Hw in Hn.
  assert (wf (mkBuffer (buffer_ b) (readerIndex_ b) (writerIndex_ b + n)))
    as Hwf1 by (unfold wf, I1; simpl; lia).
  split_and!; [|done|].
  - unfold hasWritten. rewrite Hw. run. by unwrap.
  - unfold content, peek. rewrite (readableBytes_wf _ Hwf1), Hr. simpl.
    unfold vector.size in *.
    replace (Z.to_nat (writerIndex_ b + n - readerIndex_ b))
      with (Z.to_nat (writerIndex_ b - readerIndex_ b) + Z.to_nat n)%nat
      by lia.
    rewrite <- take_take_drop, drop_drop. do 3 f_equal. lia.
Qed.

(** X4: on a buffer satisfying the class invariant, [hasWritten(n)] with
    [n <= writableBytes()] makes the next [n] bytes of the storage
    readable, and [unwrite(n)] right after it gives back the buffer as it
    was. *)
Theorem hasWritten_then_unwrite (b : Buffer) (n : Z) :
  wf b -> 0 <= n <= writableBytes b ->
  exists b1,
    hasWritten n b = Ok b1
    /\ readableBytes b1 = readableBytes b + n
    /\ writableBytes b1 = writableBytes b - n
    /\ content b1
       = content b
         ++ take (Z.to_nat n) (drop (Z.to_nat (beginWrite b)) (buffer_ b))
    /\ unwrite n b1 = Ok b.
Proof.
  intros Hwf Hn. pose proof (wf_bounds b Hwf) as Hb.
  pose proof (readableBytes_wf b Hwf) as Hr.
  pose proof (writableBytes_wf b Hwf) as Hw.
  destruct (hasWritten_eq b n Hwf Hn) as (Hhas & Hwf1 & Hc).
  pose proof (readableBytes_wf _ Hwf1) as Hr1.
  pose proof (writableBytes_wf _ Hwf1) as Hw1. simpl in Hr1, Hw1.
  eexists. split_and!; [exact Hhas|lia|lia|exact Hc|].
  destruct (unwrite_content _ n Hwf1) as [-> _]; [lia|]. simpl.
  replace (writerIndex_ b + n - n) with (writerIndex_ b) by lia.
  by rewrite Buffer_eta.
Qed.

Lemma hasWritten_then_unwrite_witness :
  exists b1,
    hasWritten 3 hello_buffer = Ok b1
    /\ readableBytes b1 = readableBytes hello_buffer + 3
    /\ writableBytes b1 = writableBytes hello_buffer - 3
    /\ content b1
       = content hello_buffer
         ++ take (Z.to_nat 3)
              (drop (Z.to_nat (beginWrite hello_buffer))
                 (buffer_ hello_buffer))
    /\ unwrite 3 b1 = Ok hello_buffer.
Proof. apply (hasWritten_then_unwrite hello_buffer 3); evaluated. Defined.

(** X5: on a buffer satisfying the class invariant with room for [data],
    copying [data] to [beginWrite()] from outside and committing it with
    [hasWritten(len)] is what [append(data, len)] does: both leave the
    same buffer, whose readable content is the old one followed by
    [data]. *)
Theorem fill_then_hasWritten_is_append (b : Buffer) (data : list byte) :
  wf b -> Z.of_nat (length data) <= writableBytes b ->
  exists v b',
    store (beginWrite b) data (buffer_ b) = Ok v
    /\ hasWritten (Z.of_nat (length data))
         (mkBuffer v (readerIndex_ b) (writerIndex_ b)) = Ok b'
    /\ append data (Z.of_nat (length data)) b = Ok b'
    /\ content b' = content b ++ data
    /\ length (buffer_ b') = length (buffer_ b).
Proof.
  intros Hwf Hroom. pose proof (wf_bounds b Hwf) as Hb.
  pose proof (writableBytes_wf b Hwf) as Hw.
  pose proof (written_size data b Hwf Hroom) as Hsz.
  assert (append data (Z.of_nat (length data)) b = Ok (written data b))
    as Happ.
  { apply append_from; [done..|]. by apply ensureWritableBytes_enough. }
  revert Happ. unfold append.
  rewrite ensureWritableBytes_enough by done. simpl.
  rewrite span_all. simpl. unfold beginWrite.
  destruct (store (writerIndex_ b) data (buffer_ b)) as [v|f] eqn:Hst;
    [|done].
  simpl. intros Hhas. exists v, (written data b).
  split_and!; try done.
  - by apply written_content.
  - unfold vector.size in Hsz. lia.
Qed.

Lemma fill_then_hasWritten_is_append_witness :
  exists v b',
    store (beginWrite hello_buffer) hello (buffer_ hello_buffer) = Ok v
    /\ hasWritten (Z.of_nat (length hello))
         (mkBuffer v (readerIndex_ hello_buffer) (writerIndex_ hello_buffer))
       = Ok b'
    /\ append hello (Z.of_nat (length hello)) hello_buffer = Ok b'
    /\ content b' = content hello_buffer ++ hello
    /\ length (buffer_ b') = length (buffer_ hello_buffer).
Proof. apply (fill_then_hasWritten_is_append hello_buffer hello); evaluated. Defined.

(** X6: on a buffer satisfying the class invariant, [unwrite(len)] with
    [len <= readableBytes()] drops the last [len] readable bytes and keeps
    the others; in particular [append(data, len)] (with [writerIndex_ + len
    <= max_size()]) followed by [unwrite(len)] leaves the readable content
    it found. *)
Theorem unwrite_undoes_append (b : Buffer) :
  wf b ->
  (forall len, 0 <= len <= readableBytes b ->
     exists b',
       unwrite len b = Ok b'
       /\ content b' = take (Z.to_nat (readableBytes b - len)) (content b)
       /\ buffer_ b' = buffer_ b /\ readerIndex_ b' = readerIndex_ b)
  /\ (forall data,
        writerIndex_ b + Z.of_nat (length data) <= vector.max_size ->
        exists b1 b2,
          append data (Z.of_nat (length data)) b = Ok b1
          /\ unwrite (Z.of_nat (length data)) b1 = Ok b2
          /\ content b2 = content b
          /\ readableBytes b2 = readableBytes b).
Proof.
  intros Hwf. split.
  - intros len Hl. destruct (unwrite_content b len Hwf Hl) as [-> Hc].
    eexists. split_and!; done.
  - intros data Hfit.
    destruct (append_spec data b Hwf Hfit)
      as (b1 & Happ & Hwf1 & Hc & Hr & _).
    pose proof (wf_bounds b Hwf) as Hb.
    pose proof (readableBytes_wf b Hwf) as Hn.
    pose proof (length_content b Hwf) as Hlen.
    destruct (unwrite_content b1 (Z.of_nat (length data)) Hwf1)
      as [Hun Hc2]; [lia|].
    eexists b1, _. split_and!; try done.
    + rewrite Hc2, Hc, Hr. rewrite take_app_le by lia.
      rewrite take_ge; [done|lia].
    + pose proof (wf_bounds b1 Hwf1) as Hb1.
      pose proof (readableBytes_wf b1 Hwf1) as Hn1.
      unfold readableBytes at 1. simpl. unwrap. lia.
Qed.

Lemma unwrite_undoes_append_witness :
  exists b1 b2,
    append hello (Z.of_nat (length hello)) llo_buffer = Ok b1
    /\ unwrite (Z.of_nat (length hello)) b1 = Ok b2
    /\ content b2 = content llo_buffer
    /\ readableBytes b2 = readableBytes llo_buffer.
Proof.
  refine (proj2 (unwrite_undoes_append llo_buffer _) hello _); evaluated.
Defined.

(** ** Growth *)

(** X7: on a buffer satisfying the class invariant, [append(data, len)]
    does not resize the storage when [len] bytes are writable, or when the
    prependable and writable bytes together hold [len] bytes and the
    cheap-prepend region: the storage keeps its length and the readable
    content is the old one followed by [data]; in the first case the
    readable bytes also stay where they are. *)
Theorem append_reuses_slack (b : Buffer) (data : list byte) :
  wf b ->
  Z.of_nat (length data) <= writableBytes b
  \/ Z.of_nat (length data) + kCheapPrepend
     <= writableBytes b + prependableBytes b ->
  exists b',
    append data (Z.of_nat (length data)) b = Ok b'
    /\ length (buffer_ b') = length (buffer_ b)
    /\ content b' = content b ++ data
    /\ I1 b'
    /\ (Z.of_nat (length data) <= writableBytes b ->
        readerIndex_ b' = readerIndex_ b
        /\ writerIndex_ b' = writerIndex_ b + Z.of_nat (length data)).
Proof.
  intros Hwf Hslack. pose proof (wf_bounds b Hwf) as Hb.
  pose proof (writableBytes_wf b Hwf) as Hw.
  destruct (Z_le_gt_dec (Z.of_nat (length data)) (writableBytes b))
    as [Hroom|Hshort].
  - exists (written data b).
    pose proof (written_size data b Hwf Hroom) as Hsz.
    unfold vector.size in Hsz.
    split_and!.
    + apply append_from; [done..|]. by apply ensureWritableBytes_enough.
    + lia.
    + by apply written_content.
    + by apply written_wf.
    + done.
  - destruct Hslack as [?|Hslack]; [lia|].
    assert (kCheapPrepend <= readerIndex_ b) as Hge by (consts; lia).
    pose proof (compacted_wf b Hwf Hge) as Hwf1.
    pose proof (compacted_size b Hwf Hge) as Hsz1.
    pose proof (readableBytes_wf b Hwf) as Hn.
    assert (Z.of_nat (length data) <= writableBytes (compacted b)) as Hroom.
    { rewrite (writableBytes_wf _ Hwf1), Hsz1. simpl. consts. lia. }
    pose proof (written_size data _ Hwf1 Hroom) as Hsz.
    unfold vector.size in Hsz, Hsz1.
    exists (written data (compacted b)).
    split_and!.
    + apply append_from; [done..|].
      apply ensureWritableBytes_compact; (done || lia).
    + lia.
    + by rewrite written_content, compacted_content by done.
    + by apply written_wf.
    + lia.
Qed.

Lemma append_reuses_slack_witness :
  exists b',
    append hello (Z.of_nat (length hello)) llo_buffer = Ok b'
    /\ length (buffer_ b') = length (buffer_ llo_buffer)
    /\ content b' = content llo_buffer ++ hello
    /\ I1 b'
    /\ (Z.of_nat (length hello) <= writableBytes llo_buffer ->
        readerIndex_ b' = readerIndex_ llo_buffer
        /\ writerIndex_ b'
           = writerIndex_ llo_buffer + Z.of_nat (length hello)).
Proof. apply (append_reuses_slack llo_buffer hello); evaluated. Defined.

(** X8: on a buffer satisfying the class invariant, when neither the
    writable bytes nor the slack suffice and [writerIndex_ + len <=
    max_size()], [append(data, len)] resizes the storage to exactly
    [writerIndex_ + len] bytes: afterwards no byte is writable, the old
    storage is a prefix of the new one up to the old [writerIndex_], and
    [readerIndex_] is unchanged. *)
Theorem append_grows_to_exact_fit (b : Buffer) (data : list byte) :
  wf b ->
  writableBytes b < Z.of_nat (length data) ->
  writableBytes b + prependableBytes b
  < Z.of_nat (length data) + kCheapPrepend ->
  writerIndex_ b + Z.of_nat (length data) <= vector.max_size ->
  exists b',
    append data (Z.of_nat (length data)) b = Ok b'
    /\ vector.size (buffer_ b') = writerIndex_ b + Z.of_nat (length data)
    /\ writableBytes b' = 0
    /\ readerIndex_ b' = readerIndex_ b
    /\ writerIndex_ b' = writerIndex_ b + Z.of_nat (length data)
    /\ take (Z.to_nat (writerIndex_ b)) (buffer_ b')
       = take (Z.to_nat (writerIndex_ b)) (buffer_ b)
    /\ content b' = content b ++ data.
Proof.
  intros Hwf Hshort Hslack Hfit. pose proof (wf_bounds b Hwf) as Hb.
  pose proof (writableBytes_wf b Hwf) as Hw.
  destruct (grown_wf b (Z.of_nat (length data)) Hwf) as [Hwf1 Hsz1]; [lia|].
  assert (Z.of_nat (length data)
          <= writableBytes (grown (Z.of_nat (length data)) b)) as Hroom.
  { rewrite (writableBytes_wf _ Hwf1), Hsz1. simpl. lia. }
  pose proof (written_size data _ Hwf1 Hroom) as Hsz.
  pose proof (written_wf data _ Hwf1 Hroom) as Hwf2.
  exists (written data (grown (Z.of_nat (length data)) b)).
  split_and!.
  - apply append_from; [done..|].
    apply ensureWritableBytes_grow; (done || lia).
  - lia.
  - rewrite (writableBytes_wf _ Hwf2), Hsz, Hsz1. simpl. lia.
  - done.
  - done.
  - unfold written, grown, vector.size in *. simpl.
    rewrite take_app_le by (rewrite length_take, length_app; lia).
    rewrite take_take, Nat.min_id. rewrite take_app_le by lia. done.
  - rewrite written_content, grown_content by (done || lia). done.
Qed.

Lemma append_grows_to_exact_fit_witness :
  exists b',
    append hello (Z.of_nat (length hello)) (fresh 0) = Ok b'
    /\ vector.size (buffer_ b')
       = writerIndex_ (fresh 0) + Z.of_nat (length hello)
    /\ writableBytes b' = 0
    /\ readerIndex_ b' = readerIndex_ (fresh 0)
    /\ writerIndex_ b' = writerIndex_ (fresh 0) + Z.of_nat (length hello)
    /\ take (Z.to_nat (writerIndex_ (fresh 0))) (buffer_ b')
       = take (Z.to_nat (writerIndex_ (fresh 0))) (buffer_ (fresh 0))
    /\ content b' = content (fresh 0) ++ hello.
Proof. apply (append_grows_to_exact_fit (fresh 0) hello); evaluated. Defined.

(** X9: on a buffer satisfying the class invariant, after
    [ensureWritableBytes(n)] (with [writerIndex_ + n <= max_size()]) a
    second [ensureWritableBytes(m)] with [m <= n] changes nothing. *)
Theorem ensureWritableBytes_again_is_noop (b : Buffer) (n m : Z) :
  wf b -> 0 <= m <= n -> writerIndex_ b + n <= vector.max_size ->
  exists b1,
    ensureWritableBytes n b = Ok b1
    /\ ensureWritableBytes m b1 = Ok b1.
Proof.
  intros Hwf Hm Hfit.
  destruct (ensureWritableBytes_cases b n Hwf) as (b1 & Hens & _ & Hroom & _);
    [lia|done|].
  exists b1. split; [done|]. apply ensureWritableBytes_enough. lia.
Qed.

Lemma ensureWritableBytes_again_is_noop_witness :
  exists b1,
    ensureWritableBytes 2000 hello_buffer = Ok b1
    /\ ensureWritableBytes 1500 b1 = Ok b1.
Proof.
  apply (ensureWritableBytes_again_is_noop hello_buffer 2000 1500); evaluated.
Defined.

(** X10: on a buffer satisfying the class invariant, a request of at most
    [max_size()] bytes that the slack cannot serve and that would take the
    storage beyond [max_size()] ends in [std::length_error]: from
    [ensureWritableBytes(len)], and from [append(data, len)] before any byte
    is copied. *)
Theorem oversized_request_throws_length_error (b : Buffer) (len : Z) :
  wf b -> 0 <= len <= vector.max_size ->
  vector.max_size < writerIndex_ b + len ->
  writableBytes b + prependableBytes b < len + kCheapPrepend ->
  makeSpace len b = Fail LengthError
  /\ ensureWritableBytes len b = Fail LengthError
  /\ (forall data, append data len b = Fail LengthError).
Proof.
  intros Hwf Hlen Hbig Hslack. pose proof (wf_bounds b Hwf) as Hb.
  pose proof (writableBytes_wf b Hwf) as Hw.
  assert (makeSpace len b = Fail LengthError) as Hmk.
  { unfold makeSpace, vector.resize. rewrite Hw in *. unwrap. by run. }
  assert (ensureWritableBytes len b = Fail LengthError) as Hens.
  { unfold ensureWritableBytes. rewrite Hw in *.
    destruct (Z.ltb_spec (vector.size (buffer_ b) - writerIndex_ b) len);
      [|consts; lia].
    by rewrite Hmk. }
  split_and!; try done. intros data. unfold append. by rewrite Hens.
Qed.

Lemma oversized_request_throws_length_error_witness :
  makeSpace vector.max_size hello_buffer = Fail LengthError
  /\ ensureWritableBytes vector.max_size hello_buffer = Fail LengthError
  /\ (forall data, append data vector.max_size hello_buffer
                   = Fail LengthError).
Proof.
  apply (oversized_request_throws_length_error hello_buffer vector.max_size);
    evaluated.
Defined.

(** X11: what [Buffer(initialSize)] does for every [size_t] value.  When
    [kCheapPrepend + initialSize <= max_size()] it returns an empty buffer
    over that many zero bytes, with [initialSize] writable and
    [kCheapPrepend] prependable bytes.  When the sum exceeds [max_size()]
    without wrapping, the vector constructor throws [std::length_error].
    When the sum wraps around (the eight largest values), the three
    assertions pass and the constructor returns a buffer whose storage, of
    fewer than [kCheapPrepend] bytes, ends before its cursors. *)
Theorem constructor_regimes (n : Z) :
  size_t.inb n ->
  (kCheapPrepend + n <= vector.max_size ->
   exists b,
     Buffer_ctor n = Ok b
     /\ buffer_ b = replicate (Z.to_nat (kCheapPrepend + n)) Byte.x00
     /\ readableBytes b = 0 /\ writableBytes b = n
     /\ prependableBytes b = kCheapPrepend
     /\ content b = [] /\ inv b)
  /\ (vector.max_size < kCheapPrepend + n < size_t.modulus ->
      Buffer_ctor n = Fail LengthError)
  /\ (size_t.modulus <= kCheapPrepend + n ->
      exists b,
        Buffer_ctor n = Ok b
        /\ vector.size (buffer_ b) = kCheapPrepend + n - size_t.modulus
        /\ readerIndex_ b = kCheapPrepend /\ writerIndex_ b = kCheapPrepend
        /\ ~ I1 b).
Proof.
  intros Hn. split_and!.
  - intros Hfit. destruct Hn as [Hn _]. exists (fresh n).
    pose proof (fresh_wf n Hn Hfit) as Hwf.
    pose proof (fresh_size n Hn) as Hsz.
    split_and!; try done.
    + by apply Buffer_ctor_eq.
    + rewrite (writableBytes_wf _ Hwf), Hsz. simpl. lia.
    + split; [done|]. rewrite Hsz. lia.
  - intros Hbig. unfold Buffer_ctor, vector.create. unwrap. by run.
  - intros Hwrap.
    assert (size_t.add kCheapPrepend n = kCheapPrepend + n - size_t.modulus)
      as Hadd.
    { unfold size_t.add, size_t.wrap. consts.
      Z.to_euclidean_division_equations. lia. }
    set (k := kCheapPrepend + n - size_t.modulus) in *.
    assert (0 <= k < kCheapPrepend) as Hk by (unfold k; consts; lia).
    assert (size_t.sub k kCheapPrepend = n) as Hsub.
    { unfold size_t.sub, size_t.wrap, k. consts.
      Z.to_euclidean_division_equations. lia. }
    exists (mkBuffer (replicate (Z.to_nat k) Byte.x00)
              kCheapPrepend kCheapPrepend).
    split_and!; try done.
    + unfold Buffer_ctor, vector.create. rewrite Hadd.
      destruct (Z.ltb_spec vector.max_size k); [consts; lia|]. simpl.
      unfold readableBytes, writableBytes. simpl.
      rewrite size_replicate by lia. rewrite Hsub.
      by rewrite Z.eqb_refl.
    + simpl. apply size_replicate. lia.
    + unfold I1. simpl. rewrite size_replicate by lia. lia.
Qed.

Lemma constructor_regimes_witness :
  (kCheapPrepend + (2 ^ 64 - 3) <= vector.max_size ->
   exists b,
     Buffer_ctor (2 ^ 64 - 3) = Ok b
     /\ buffer_ b
        = replicate (Z.to_nat (kCheapPrepend + (2 ^ 64 - 3))) Byte.x00
     /\ readableBytes b = 0 /\ writableBytes b = 2 ^ 64 - 3
     /\ prependableBytes b = kCheapPrepend
     /\ content b = [] /\ inv b)
  /\ (vector.max_size < kCheapPrepend + (2 ^ 64 - 3) < size_t.modulus ->
      Buffer_ctor (2 ^ 64 - 3) = Fail LengthError)
  /\ (size_t.modulus <= kCheapPrepend + (2 ^ 64 - 3) ->
      exists b,
        Buffer_ctor (2 ^ 64 - 3) = Ok b
        /\ vector.size (buffer_ b)
           = kCheapPrepend + (2 ^ 64 - 3) - size_t.modulus
        /\ readerIndex_ b = kCheapPrepend /\ writerIndex_ b = kCheapPrepend
        /\ ~ I1 b).
Proof. apply (constructor_regimes (2 ^ 64 - 3)); evaluated. Defined.

(** ** Integers at the front and at the end *)

Lemma swrap_in_range n z : (0 < n)%nat -> int.in_range n (int.swrap n z).
Proof.
  intros Hn. unfold int.in_range, int.swrap.
  assert (2 ^ (8 * Z.of_nat n) = 2 * 2 ^ (8 * Z.of_nat n - 1)) as HM.
  { rewrite <- Z.pow_succ_r by lia. f_equal. lia. }
  assert (0 < 2 ^ (8 * Z.of_nat n - 1)) as Hpos
    by (apply Z.pow_pos_nonneg; lia).
  pose proof (Z.mod_pos_bound (z + 2 ^ (8 * Z.of_nat n - 1))
                (2 ^ (8 * Z.of_nat n)) ltac:(lia)).
  lia.
Qed.

(** the body shared by [peekInt8], [peekInt16] and [peekInt32] *)
Lemma peek_front (n : nat) b :
  wf b ->
  (Z.of_nat n <= readableBytes b ->
   (assert (Z.of_nat n <=? readableBytes b);;
    bs ← span (peek b) (Z.of_nat n);
    Ok (int.of_bytes n bs))
   = Ok (int.of_bytes n (take n (content b))))
  /\ (readableBytes b < Z.of_nat n ->
      (assert (Z.of_nat n <=? readableBytes b);;
       bs ← span (peek b) (Z.of_nat n);
       Ok (int.of_bytes n bs))
      = Fail AssertionFailed).
Proof.
  intros Hwf. split; intros Hn.
  - rewrite span_peek by (done || lia). run. by rewrite Nat2Z.id.
  - by run.
Qed.

(** X12: on a buffer satisfying the class invariant, [peekInt8],
    [peekInt16] and [peekInt32] return the integer whose object
    representation is the first 1, 2 or 4 readable bytes, a value of the
    integer type, when that many bytes are readable, and abort on their
    assertion when fewer are. *)
Theorem peekInt_decodes_front_or_aborts (b : Buffer) :
  wf b ->
  (1 <= readableBytes b ->
   peekInt8 b = Ok (int.of_bytes 1 (take 1 (content b)))
   /\ int.in_range 1 (int.of_bytes 1 (take 1 (content b))))
  /\ (2 <= readableBytes b ->
      peekInt16 b = Ok (int.of_bytes 2 (take 2 (content b)))
      /\ int.in_range 2 (int.of_bytes 2 (take 2 (content b))))
  /\ (4 <= readableBytes b ->
      peekInt32 b = Ok (int.of_bytes 4 (take 4 (content b)))
      /\ int.in_range 4 (int.of_bytes 4 (take 4 (content b))))
  /\ (readableBytes b < 1 -> peekInt8 b = Fail AssertionFailed)
  /\ (readableBytes b < 2 -> peekInt16 b = Fail AssertionFailed)
  /\ (readableBytes b < 4 -> peekInt32 b = Fail AssertionFailed).
Proof.
  intros Hwf.
  split_and!; intros Hn;
    try (split; [|apply swrap_in_range; lia]).
  - by apply (peek_front 1 b Hwf).
  - by apply (peek_front 2 b Hwf).
  - by apply (peek_front 4 b Hwf).
  - by apply (peek_front 1 b Hwf).
  - by apply (peek_front 2 b Hwf).
  - by apply (peek_front 4 b Hwf).
Qed.

Lemma peekInt_decodes_front_or_aborts_witness :
  peekInt32 hello_buffer
  = Ok (int.of_bytes 4 (take 4 (content hello_buffer)))
  /\ int.in_range 4 (int.of_bytes 4 (take 4 (content hello_buffer))).
Proof.
  refine (proj1 (proj2 (proj2
            (peekInt_decodes_front_or_aborts hello_buffer _))) _); evaluated.
Defined.

(** X13: on a buffer satisfying the class invariant, [append] does not
    change what is at the front: when N/8 bytes are readable, [peekIntN()]
    after [append(data, len)] (with [writerIndex_ + len <= max_size()])
    returns what it returned before, whether the storage was kept, grown or
    compacted. *)
Theorem append_keeps_front (b : Buffer) (data : list byte) :
  wf b -> writerIndex_ b + Z.of_nat (length data) <= vector.max_size ->
  exists b',
    append data (Z.of_nat (length data)) b = Ok b'
    /\ (1 <= readableBytes b -> peekInt8 b' = peekInt8 b)
    /\ (2 <= readableBytes b -> peekInt16 b' = peekInt16 b)
    /\ (4 <= readableBytes b -> peekInt32 b' = peekInt32 b)
    /\ (forall len, 0 <= len <= readableBytes b ->
          take (Z.to_nat len) (content b')
          = take (Z.to_nat len) (content b)).
Proof.
  intros Hwf Hfit.
  destruct (append_spec data b Hwf Hfit)
    as (b' & Happ & Hwf' & Hc & Hr & _).
  pose proof (length_content b Hwf) as Hlen.
  assert (forall n : nat, Z.of_nat n <= readableBytes b ->
            take n (content b') = take n (content b)) as Hfront.
  { intros n Hn. rewrite Hc. apply take_app_le. lia. }
  exists b'. split_and!; [done| | | |].
  - intros Hn.
    assert (peekInt8 b' = Ok (int.of_bytes 1 (take 1 (content b')))) as ->
      by (apply (peek_front 1 b' Hwf'); simpl; lia).
    assert (peekInt8 b = Ok (int.of_bytes 1 (take 1 (content b)))) as ->
      by (apply (peek_front 1 b Hwf); simpl; lia).
    by rewrite (Hfront 1%nat) by (simpl; lia).
  - intros Hn.
    assert (peekInt16 b' = Ok (int.of_bytes 2 (take 2 (content b')))) as ->
      by (apply (peek_front 2 b' Hwf'); simpl; lia).
    assert (peekInt16 b = Ok (int.of_bytes 2 (take 2 (content b)))) as ->
      by (apply (peek_front 2 b Hwf); simpl; lia).
    by rewrite (Hfront 2%nat) by (simpl; lia).
  - intros Hn.
    assert (peekInt32 b' = Ok (int.of_bytes 4 (take 4 (content b')))) as ->
      by (apply (peek_front 4 b' Hwf'); simpl; lia).
    assert (peekInt32 b = Ok (int.of_bytes 4 (take 4 (content b)))) as ->
      by (apply (peek_front 4 b Hwf); simpl; lia).
    by rewrite (Hfront 4%nat) by (simpl; lia).
  - intros len Hl. apply Hfront. lia.
Qed.

Lemma append_keeps_front_witness :
  exists b',
    append hello (Z.of_nat (length hello)) llo_buffer = Ok b'
    /\ (1 <= readableBytes llo_buffer -> peekInt8 b' = peekInt8 llo_buffer)
    /\ (2 <= readableBytes llo_buffer -> peekInt16 b' = peekInt16 llo_buffer)
    /\ (4 <= readableBytes llo_buffer -> peekInt32 b' = peekInt32 llo_buffer)
    /\ (forall len, 0 <= len <= readableBytes llo_buffer ->
          take (Z.to_nat len) (content b')
          = take (Z.to_nat len) (content llo_buffer)).
Proof. apply (append_keeps_front llo_buffer hello); evaluated. Defined.

(** X14: on a buffer satisfying the class invariant with a prependable
    byte, [prependInt8(x)] for an 8-bit [x] puts [x] at the front, whatever
    is readable already: [peekInt8()] then returns [x], one more byte is
    readable, and [retrieveInt8()] leaves the readable content that was
    there before. *)
Theorem prependInt8_peekInt8_retrieveInt8 (b : Buffer) (x : Z) :
  wf b -> 1 <= prependableBytes b -> int.in_range 1 x ->
  exists b1 b2,
    prependInt8 x b = Ok b1
    /\ peekInt8 b1 = Ok x
    /\ readableBytes b1 = readableBytes b + 1
    /\ content b1 = int.to_bytes 1 x ++ content b
    /\ retrieveInt8 b1 = Ok b2
    /\ content b2 = content b.
Proof.
  intros Hwf Hroom Hx.
  assert (Z.of_nat (length (int.to_bytes 1 x)) <= prependableBytes b)
    as Hroom' by (rewrite length_to_bytes; simpl; lia).
  pose proof (prepended_wf _ b Hwf Hroom') as Hwf1.
  pose proof (prepended_content _ b Hwf Hroom') as Hc1.
  pose proof (length_content b Hwf) as Hlen.
  pose proof (length_content _ Hwf1) as Hlen1.
  rewrite Hc1, length_app, length_to_bytes in Hlen1.
  destruct (retrieve_content (prepended (int.to_bytes 1 x) b) 1 Hwf1)
    as (b2 & Hret & Hc2 & _); [lia|].
  exists (prepended (int.to_bytes 1 x) b), b2.
  split_and!; try done.
  - unfold prependInt8. by apply (prependInt_spec 1).
  - assert (peekInt8 (prepended (int.to_bytes 1 x) b)
            = Ok (int.of_bytes 1
                    (take 1 (content (prepended (int.to_bytes 1 x) b)))))
      as -> by (apply (peek_front 1 _ Hwf1); simpl; lia).
    rewrite Hc1, take_app_length' by (by rewrite length_to_bytes).
    by rewrite of_to_bytes by (lia || done).
  - lia.
  - rewrite Hc2, Hc1. apply drop_app_length'. by rewrite length_to_bytes.
Qed.

Lemma prependInt8_peekInt8_retrieveInt8_witness :
  exists b1 b2,
    prependInt8 (-7) hello_buffer = Ok b1
    /\ peekInt8 b1 = Ok (-7)
    /\ readableBytes b1 = readableBytes hello_buffer + 1
    /\ content b1 = int.to_bytes 1 (-7) ++ content hello_buffer
    /\ retrieveInt8 b1 = Ok b2
    /\ content b2 = content hello_buffer.
Proof.
  apply (prependInt8_peekInt8_retrieveInt8 hello_buffer (-7)); evaluated.
Defined.

(** X15: on a buffer satisfying the class invariant, [appendIntN(x)] for N
    in {8, 16, 32, 64} and an N-bit [x] (with [writerIndex_ + N/8 <=
    max_size()]) adds the N/8 bytes of [x] after the readable content: the
    bytes behind the old content decode to [x].  So a 64-bit integer, for
    which the class has no peek, is read back from an empty buffer by
    [retrieveAsString(8)]. *)
Theorem appendInt_adds_representation_at_end (b : Buffer) (x : Z) :
  wf b ->
  let tail b' := drop (Z.to_nat (readableBytes b)) (content b') in
  (int.in_range 1 x -> writerIndex_ b + 1 <= vector.max_size ->
   exists b', appendInt8 x b = Ok b'
     /\ readableBytes b' = readableBytes b + 1
     /\ int.of_bytes 1 (tail b') = x)
  /\ (int.in_range 2 x -> writerIndex_ b + 2 <= vector.max_size ->
      exists b', appendInt16 x b = Ok b'
        /\ readableBytes b' = readableBytes b + 2
        /\ int.of_bytes 2 (tail b') = x)
  /\ (int.in_range 4 x -> writerIndex_ b + 4 <= vector.max_size ->
      exists b', appendInt32 x b = Ok b'
        /\ readableBytes b' = readableBytes b + 4
        /\ int.of_bytes 4 (tail b') = x)
  /\ (int.in_range 8 x -> writerIndex_ b + 8 <= vector.max_size ->
      exists b', appendInt64 x b = Ok b'
        /\ readableBytes b' = readableBytes b + 8
        /\ int.of_bytes 8 (tail b') = x
        /\ (readableBytes b = 0 ->
            exists s b2,
              retrieveAsString 8 b' = Ok (s, b2)
              /\ int.of_bytes 8 s = x /\ readableBytes b2 = 0)).
Proof.
  intros Hwf tail. pose proof (length_content b Hwf) as Hlen.
  assert (forall n : nat, (0 < n)%nat -> int.in_range n x ->
            writerIndex_ b + Z.of_nat n <= vector.max_size ->
            exists b', append (int.to_bytes n x) (Z.of_nat n) b = Ok b'
              /\ wf b'
              /\ content b' = content b ++ int.to_bytes n x
              /\ readableBytes b' = readableBytes b + Z.of_nat n
              /\ int.of_bytes n (tail b') = x) as Hgen.
  { intros n Hn Hx Hfit.
    destruct (appendInt_spec n x b Hwf Hfit) as (b' & ? & ? & Hc & ? & _).
    exists b'. split_and!; try done. unfold tail.
    rewrite Hc, drop_app_length' by lia. by apply of_to_bytes. }
  split_and!; intros Hx Hfit.
  - destruct (Hgen 1%nat) as (b' & ? & _ & _ & ? & ?); [lia|done|done|].
    by exists b'.
  - destruct (Hgen 2%nat) as (b' & ? & _ & _ & ? & ?); [lia|done|done|].
    by exists b'.
  - destruct (Hgen 4%nat) as (b' & ? & _ & _ & ? & ?); [lia|done|done|].
    by exists b'.
  - destruct (Hgen 8%nat) as (b' & Happ & Hwf' & Hc & Hr & Hdec);
      [lia|done|done|].
    exists b'. split_and!; try done. intros H0.
    destruct (retrieve_readableBytes b' 8 Hwf') as (b2 & Hret & Hr2);
      [simpl in Hr; lia|].
    exists (take 8 (content b')), b2.
    rewrite retrieveAsString_unfold, Hret by (done || simpl in Hr; lia).
    split_and!; [done| |simpl in Hr; lia].
    rewrite Hc, content_nil, app_nil_l by done.
    rewrite take_ge by (by rewrite length_to_bytes).
    apply of_to_bytes; [lia|done].
Qed.

Lemma appendInt_adds_representation_at_end_witness :
  exists b', appendInt64 (- 2 ^ 40) hello_buffer = Ok b'
    /\ readableBytes b' = readableBytes hello_buffer + 8
    /\ int.of_bytes 8
         (drop (Z.to_nat (readableBytes hello_buffer)) (content b'))
       = - 2 ^ 40
    /\ (readableBytes hello_buffer = 0 ->
        exists s b2,
          retrieveAsString 8 b' = Ok (s, b2)
          /\ int.of_bytes 8 s = - 2 ^ 40 /\ readableBytes b2 = 0).
Proof.
  refine (proj2 (proj2 (proj2
            (appendInt_adds_representation_at_end hello_buffer (- 2 ^ 40) _)))
            _ _); evaluated.
Defined.

(** ** Appends in sequence, and violated preconditions *)

(** where [append] leaves the write cursor *)
Lemma append_writerIndex data b :
  wf b -> writerIndex_ b + Z.of_nat (length data) <= vector.max_size ->
  exists b',
    append data (Z.of_nat (length data)) b = Ok b'
    /\ wf b'
    /\ content b' = content b ++ data
    /\ writerIndex_ b' <= writerIndex_ b + Z.of_nat (length data).
Proof.
  intros Hwf Hfit. pose proof (wf_bounds b Hwf) as Hb.
  pose proof (readableBytes_wf b Hwf) as Hn.
  pose proof (writableBytes_wf b Hwf) as Hw.
  destruct (ensureWritableBytes_cases b (Z.of_nat (length data)))
    as (b1 & Hens & Hwf1 & Hroom & Hc & _ & _ & Hcase); [done|lia|done|].
  exists (written data b1).
  rewrite (append_from data b1 Hwf1 Hroom b Hens).
  rewrite written_content, Hc by done.
  split_and!; try done; [by apply written_wf|]. simpl.
  destruct Hcase as [[_ ->]|[(_ & _ & ->)|(? & ? & ->)]]; simpl;
    consts; lia.
Qed.

(** X16: on a buffer satisfying the class invariant, two appends in a row
    leave the readable content that one append of the concatenation
    leaves: the old content, then the first bytes, then the second
    (provided [writerIndex_] plus both lengths is at most [max_size()]). *)
Theorem append_append_is_append_of_concatenation
  (b : Buffer) (d1 d2 : list byte) :
  wf b ->
  writerIndex_ b + Z.of_nat (length d1) + Z.of_nat (length d2)
  <= vector.max_size ->
  exists b1 b2 b12,
    append d1 (Z.of_nat (length d1)) b = Ok b1
    /\ append d2 (Z.of_nat (length d2)) b1 = Ok b2
    /\ append (d1 ++ d2) (Z.of_nat (length (d1 ++ d2))) b = Ok b12
    /\ content b2 = content b ++ d1 ++ d2
    /\ content b12 = content b2
    /\ readableBytes b12 = readableBytes b2.
Proof.
  intros Hwf Hfit.
  destruct (append_writerIndex d1 b Hwf) as (b1 & Happ1 & Hwf1 & Hc1 & Hw1);
    [lia|].
  destruct (append_writerIndex d2 b1 Hwf1) as (b2 & Happ2 & Hwf2 & Hc2 & _);
    [lia|].
  destruct (append_writerIndex (d1 ++ d2) b Hwf)
    as (b12 & Happ12 & Hwf12 & Hc12 & _); [rewrite length_app; lia|].
  exists b1, b2, b12.
  assert (content b12 = content b2) as Heq
    by (by rewrite Hc12, Hc2, Hc1, (assoc_L (++))).
  split_and!; try done.
  - by rewrite Hc2, Hc1, (assoc_L (++)).
  - by rewrite <- (length_content b12 Hwf12), <- (length_content b2 Hwf2), Heq.
Qed.

Lemma append_append_is_append_of_concatenation_witness :
  exists b1 b2 b12,
    append hello (Z.of_nat (length hello)) llo_buffer = Ok b1
    /\ append [Byte.x21] (Z.of_nat (length [Byte.x21])) b1 = Ok b2
    /\ append (hello ++ [Byte.x21])
         (Z.of_nat (length (hello ++ [Byte.x21]))) llo_buffer = Ok b12
    /\ content b2 = content llo_buffer ++ hello ++ [Byte.x21]
    /\ content b12 = content b2
    /\ readableBytes b12 = readableBytes b2.
Proof.
  apply (append_append_is_append_of_concatenation llo_buffer hello
           [Byte.x21]); evaluated.
Defined.

(** X18: a call that violates its precondition aborts on the assertion,
    in every buffer state and before anything is read or written:
    [retrieve], [retrieveAsString] and [unwrite] with [len] above
    [readableBytes()], [retrieveIntN] with fewer than N/8 readable bytes,
    [hasWritten] with [len] above [writableBytes()], and [prepend] and
    [prependInt8] with more bytes than [prependableBytes()], however many
    bytes are writable: the prepend region is never grown. *)
Theorem violated_precondition_aborts (b : Buffer) (len : Z) :
  (readableBytes b < len ->
   retrieve len b = Fail AssertionFailed
   /\ retrieveAsString len b = Fail AssertionFailed
   /\ unwrite len b = Fail AssertionFailed)
  /\ (readableBytes b < 1 -> retrieveInt8 b = Fail AssertionFailed)
  /\ (readableBytes b < 2 -> retrieveInt16 b = Fail AssertionFailed)
  /\ (readableBytes b < 4 -> retrieveInt32 b = Fail AssertionFailed)
  /\ (readableBytes b < 8 -> retrieveInt64 b = Fail AssertionFailed)
  /\ (writableBytes b < len -> hasWritten len b = Fail AssertionFailed)
  /\ (prependableBytes b < len ->
      forall data, prepend data len b = Fail AssertionFailed)
  /\ (prependableBytes b < 1 ->
      forall x, prependInt8 x b = Fail AssertionFailed).
Proof.
  unfold retrieveInt8, retrieveInt16, retrieveInt32, retrieveInt64,
    prependInt8, retrieveAsString, retrieve, unwrite, hasWritten, prepend.
  split_and!; intros Hlt; try intros ?; by run.
Qed.

(** X19: on a buffer satisfying the class invariant, [prepend(h, k)]
    followed by [retrieveAsString(k)] returns [h] and leaves the readable
    content that was there before the [prepend]. *)
Theorem prepend_then_retrieveAsString (b : Buffer) (h : list byte) :
  wf b -> Z.of_nat (length h) <= prependableBytes b ->
  exists b1 b2,
    prepend h (Z.of_nat (length h)) b = Ok b1
    /\ retrieveAsString (Z.of_nat (length h)) b1 = Ok (h, b2)
    /\ content b2 = content b.
Proof.
  intros Hwf Hroom.
  pose proof (prepended_wf h b Hwf Hroom) as Hwf1.
  pose proof (prepended_content h b Hwf Hroom) as Hc1.
  pose proof (length_content _ Hwf1) as Hlen1.
  rewrite Hc1, length_app in Hlen1.
  destruct (retrieve_content (prepended h b) (Z.of_nat (length h)) Hwf1)
    as (b2 & Hret & Hc2 & _); [lia|].
  exists (prepended h b), b2. split_and!.
  - by apply prepend_eq.
  - rewrite retrieveAsString_unfold, Hret by (done || lia). simpl.
    by rewrite Hc1, Nat2Z.id, take_app_length.
  - by rewrite Hc2, Hc1, Nat2Z.id, drop_app_length.
Qed.

Lemma prepend_then_retrieveAsString_witness :
  exists b1 b2,
    prepend [Byte.x00; Byte.x05] (Z.of_nat (length [Byte.x00; Byte.x05]))
      hello_buffer = Ok b1
    /\ retrieveAsString (Z.of_nat (length [Byte.x00; Byte.x05])) b1
       = Ok ([Byte.x00; Byte.x05], b2)
    /\ content b2 = content hello_buffer.
Proof.
  apply (prepend_then_retrieveAsString hello_buffer [Byte.x00; Byte.x05]);
    evaluated.
Defined.

(** X20: on a buffer satisfying the class invariant, a request whose sum
    with [writerIndex_] wraps around 2^64 (while [len + kCheapPrepend] does
    not) is not refused: [ensureWritableBytes(len)] resizes the storage to
    [writerIndex_ + len - 2^64] bytes, fewer than [writerIndex_], its
    closing assertion passes on the wrapped [writableBytes()], and it
    returns a buffer whose write cursor is past the end of the storage. *)
Theorem wrapped_request_truncates_storage (b : Buffer) (len : Z) :
  wf b -> 0 <= len ->
  size_t.modulus <= writerIndex_ b + len ->
  len + kCheapPrepend < size_t.modulus ->
  exists b',
    ensureWritableBytes len b = Ok b'
    /\ buffer_ b'
       = take (Z.to_nat (writerIndex_ b + len - size_t.modulus)) (buffer_ b)
    /\ readerIndex_ b' = readerIndex_ b
    /\ writerIndex_ b' = writerIndex_ b
    /\ vector.size (buffer_ b') < writerIndex_ b'
    /\ writableBytes b' = len
    /\ ~ I1 b'.
Proof.
  intros Hwf Hlen Hwrap Hnowrap. pose proof (wf_bounds b Hwf) as Hb.
  pose proof (writableBytes_wf b Hwf) as Hw.
  set (k := writerIndex_ b + len - size_t.modulus).
  assert (0 <= k < writerIndex_ b) as Hk by (unfold k; consts; lia).
  assert (size_t.add (writerIndex_ b) len = k) as Hadd.
  { unfold size_t.add, size_t.wrap, k. consts.
    Z.to_euclidean_division_equations. lia. }
  assert (size_t.sub k (writerIndex_ b) = len) as Hsub.
  { unfold size_t.sub, size_t.wrap, k. consts.
    Z.to_euclidean_division_equations. lia. }
  assert (vector.size (take (Z.to_nat k) (buffer_ b)) = k) as Hsz
    by (apply size_take; lia).
  assert (makeSpace len b
          = Ok (mkBuffer (take (Z.to_nat k) (buffer_ b))
                  (readerIndex_ b) (writerIndex_ b))) as Hmk.
  { unfold makeSpace, vector.resize. rewrite Hw, Hadd.
    rewrite (add_small (_ - _)), (add_small len) by (consts; lia).
    consts. by run. }
  exists (mkBuffer (take (Z.to_nat k) (buffer_ b))
            (readerIndex_ b) (writerIndex_ b)).
  assert (writableBytes (mkBuffer (take (Z.to_nat k) (buffer_ b))
            (readerIndex_ b) (writerIndex_ b)) = len) as Hw'.
  { unfold writableBytes. simpl. by rewrite Hsz. }
  split_and!; try done.
  - unfold ensureWritableBytes. rewrite Hw.
    destruct (Z.ltb_spec (vector.size (buffer_ b) - writerIndex_ b) len);
      [|consts; lia].
    rewrite Hmk. simpl. rewrite Hw'. by rewrite Z.leb_refl.
  - simpl. lia.
  - unfold I1. simpl. lia.
Qed.

Lemma wrapped_request_truncates_storage_witness :
  exists b',
    ensureWritableBytes (2 ^ 64 - 10) hello_buffer = Ok b'
    /\ buffer_ b'
       = take (Z.to_nat (writerIndex_ hello_buffer + (2 ^ 64 - 10)
                         - size_t.modulus)) (buffer_ hello_buffer)
    /\ readerIndex_ b' = readerIndex_ hello_buffer
    /\ writerIndex_ b' = writerIndex_ hello_buffer
    /\ vector.size (buffer_ b') < writerIndex_ b'
    /\ writableBytes b' = 2 ^ 64 - 10
    /\ ~ I1 b'.
Proof.
  apply (wrapped_request_truncates_storage hello_buffer (2 ^ 64 - 10));
    evaluated.
Defined.
